(** * dumbdown.js: SQL to Smart SQL rewriting

    A shallow embedding of [src/dumbdown.js] and the properties of it that
    the specification states.

    Strings are [string]s of 8-bit characters; a character stands for the
    UTF-16 code unit of the same value (the Latin-1 range).  The JavaScript
    string and regular-expression operations the library calls are embedded
    in [Module JS]; the regular expressions of the source are values of
    [JS.regex], run by a backtracking matcher that follows the ECMAScript
    semantics for the constructs the source uses.  An exception aborts the
    computation: fallible code returns a [result].

    [fieldMaps] is imported by the source from [../init/tables], which is
    not part of the library: it is a parameter of every function that reads
    it.  It is a plain dictionary (own properties only): table and field
    names that are members of [Object.prototype] are outside the model. *)

From stdpp Require Import gmap strings list.
From Stdlib Require Import Ascii.

(** ** Exceptions *)

Inductive exn := TypeError.

Inductive result (A : Type) :=
| Ok (a : A)
| Throw (e : exn).
Arguments Ok {A} a.
Arguments Throw {A} e.

#[global] Instance result_ret : MRet result := fun _ a => Ok a.
#[global] Instance result_bind : MBind result := fun _ _ f m =>
  match m with
  | Ok a => f a
  | Throw e => Throw e
  end.

(** [o.p] where [o] may be [null] or [undefined]: reading a property of
    either throws a TypeError. *)
Definition of_defined {A} (o : option A) : result A :=
  match o with
  | Some a => Ok a
  | None => Throw TypeError
  end.

Module JS.

(** ** Characters *)

Definition code (c : ascii) : N := N_of_ascii c.

(** LineTerminator: LF and CR (U+2028 and U+2029 are beyond the range). *)
Definition is_line_terminator (c : ascii) : bool :=
  (code c =? 10)%N || (code c =? 13)%N.

(** The class [\s]: TAB, LF, VT, FF, CR, SP and NBSP. *)
Definition is_white_space (c : ascii) : bool :=
  ((9 <=? code c)%N && (code c <=? 13)%N) || (code c =? 32)%N || (code c =? 160)%N.

(** [toUpperCase] of one code unit, as Canonicalize uses it under the [i]
    flag.  A code unit whose upper case is outside the range or longer than
    one unit (181, 223, 255) is equal to no other one and stays as it is. *)
Definition to_upper (c : ascii) : ascii :=
  let n := code c in
  if ((97 <=? n)%N && (n <=? 122)%N) || ((224 <=? n)%N && (n <=? 254)%N && negb (n =? 247)%N)
  then ascii_of_N (n - 32) else c.

Definition to_lower (c : ascii) : ascii :=
  let n := code c in
  if ((65 <=? n)%N && (n <=? 90)%N) || ((192 <=? n)%N && (n <=? 222)%N && negb (n =? 215)%N)
  then ascii_of_N (n + 32) else c.

(** ** Strings *)

Fixpoint str_take (n : nat) (s : string) : string :=
  match n, s with
  | S n', String c s' => String c (str_take n' s')
  | _, _ => ""
  end.

Fixpoint str_drop (n : nat) (s : string) : string :=
  match n, s with
  | S n', String _ s' => str_drop n' s'
  | _, _ => s
  end.

(** [s.startsWith(p)] *)
Fixpoint startsWith (p s : string) : bool :=
  match p, s with
  | "", _ => true
  | String a p', String b s' => Ascii.eqb a b && startsWith p' s'
  | String _ _, "" => false
  end.

(** [s.indexOf(p)]; [None] is -1. *)
Fixpoint indexOf (p s : string) : option nat :=
  if startsWith p s then Some 0
  else match s with
       | "" => None
       | String _ s' => S <$> indexOf p s'
       end.

(** [s.indexOf(p) > -1] *)
Definition contains (p s : string) : bool := bool_decide (is_Some (indexOf p s)).

(** [s.toLowerCase()] *)
Fixpoint toLowerCase (s : string) : string :=
  match s with
  | "" => ""
  | String c s' => String (to_lower c) (toLowerCase s')
  end.

(** [s.replace(/\s/g, '')] *)
Fixpoint strip_white_space (s : string) : string :=
  match s with
  | "" => ""
  | String c s' =>
      if is_white_space c then strip_white_space s' else String c (strip_white_space s')
  end.

(** [s.split(sep)] for a non-empty [sep]: the pieces between the
    occurrences of [sep], found from left to right without overlap.  [skip]
    counts the characters of an occurrence still to pass, and the head of the
    result is the piece being read. *)
Fixpoint split_from (sep : string) (skip : nat) (s : string) : list string :=
  match s with
  | "" => [""]
  | String c s' =>
      match skip with
      | S k => split_from sep k s'
      | O =>
          if startsWith sep s then "" :: split_from sep (String.length sep - 1) s'
          else match split_from sep 0 s' with
               | piece :: pieces => String c piece :: pieces
               | [] => [String c ""]
               end
      end
  end.

Definition split (sep s : string) : list string := split_from sep 0 s.

(** GetSubstitution for a string pattern: there are no captures, so of the
    [$] forms only [$$], [$&], [$`] and [$'] are replaced. *)
Fixpoint getSubstitution (matched before after replacement : string) : string :=
  match replacement with
  | "" => ""
  | String "$" (String "$" r) => String "$" (getSubstitution matched before after r)
  | String "$" (String "&" r) => matched +:+ getSubstitution matched before after r
  | String "$" (String "`" r) => before +:+ getSubstitution matched before after r
  | String "$" (String "'" r) => after +:+ getSubstitution matched before after r
  | String c r => String c (getSubstitution matched before after r)
  end.

(** [s.replace(pattern, replacement)] with a string pattern: the first
    occurrence only. *)
Definition replace (pattern replacement s : string) : string :=
  match indexOf pattern s with
  | None => s
  | Some i =>
      let before := str_take i s in
      let after := str_drop (i + String.length pattern) s in
      before +:+ getSubstitution pattern before after replacement +:+ after
  end.

(** ToString of a value that is a string or [undefined], as a template
    literal and a property key apply it. *)
Definition to_string (o : option string) : string := default "undefined" o.

(** ** Regular expressions *)

Inductive char_class :=
| Dot            (* [.]: any character but a line terminator *)
| NotWhiteSpace. (* [[^\s]] *)

Definition in_class (cl : char_class) (c : ascii) : bool :=
  match cl with
  | Dot => negb (is_line_terminator c)
  | NotWhiteSpace => negb (is_white_space c)
  end.

(** The constructs the seven expressions of the source are built from.  A
    quantifier applies to a character class only; a capturing group carries
    its number. *)
Inductive regex :=
| Chars (p : string)                      (* pattern characters *)
| Plus (greedy : bool) (cl : char_class)  (* [cl+] and [cl+?] *)
| Seq (r1 r2 : regex)
| Alt (r1 r2 : regex)                     (* [r1|r2] *)
| Group (n : nat) (r : regex)             (* [(r)] *)
| NonCapture (r : regex)                  (* [(?:r)] *)
| LookAhead (r : regex)                   (* [(?=r)] *)
| EndOfInput.                             (* [$], no [m] flag *)

Definition char_matches (ignoreCase : bool) (a b : ascii) : bool :=
  if ignoreCase then Ascii.eqb (to_upper a) (to_upper b) else Ascii.eqb a b.

(** The input left after the pattern characters [p], if they match. *)
Fixpoint eat (ignoreCase : bool) (p s : string) : option string :=
  match p with
  | "" => Some s
  | String a p' =>
      match s with
      | "" => None
      | String b s' => if char_matches ignoreCase a b then eat ignoreCase p' s' else None
      end
  end.

(** [cl+?]: one character, then as few more as the continuation needs. *)
Fixpoint plus_lazy {A} (cl : char_class) (s : string) (k : string -> option A) : option A :=
  match s with
  | "" => None
  | String c s' =>
      if in_class cl c then
        match k s' with
        | Some a => Some a
        | None => plus_lazy cl s' k
        end
      else None
  end.

(** [cl+]: as many characters as there are, then fewer on backtracking. *)
Fixpoint plus_greedy {A} (cl : char_class) (s : string) (k : string -> option A) : option A :=
  match s with
  | "" => None
  | String c s' =>
      if in_class cl c then
        match plus_greedy cl s' k with
        | Some a => Some a
        | None => k s'
        end
      else None
  end.

Abbreviation captures := (gmap nat string).

(** The text between the input [s] and what is left of it, [s']. *)
Definition consumed (s s' : string) : string :=
  str_take (String.length s - String.length s') s.

(** The backtracking matcher: [run i r s caps k] matches [r] at the start of
    [s] and passes what is left, with the captures, to the continuation [k];
    when [k] fails the next way of matching [r] is tried. *)
Fixpoint run (ignoreCase : bool) (r : regex) {A : Type} (s : string) (caps : captures)
    (k : string -> captures -> option A) {struct r} : option A :=
  match r with
  | Chars p =>
      match eat ignoreCase p s with
      | Some s' => k s' caps
      | None => None
      end
  | Plus true cl => plus_greedy cl s (fun s' => k s' caps)
  | Plus false cl => plus_lazy cl s (fun s' => k s' caps)
  | Seq r1 r2 => run ignoreCase r1 s caps (fun s' caps' => run ignoreCase r2 s' caps' k)
  | Alt r1 r2 =>
      match run ignoreCase r1 s caps k with
      | Some a => Some a
      | None => run ignoreCase r2 s caps k
      end
  | Group n r' =>
      run ignoreCase r' s caps (fun s' caps' => k s' (<[n := consumed s s']> caps'))
  | NonCapture r' => run ignoreCase r' s caps k
  | LookAhead r' =>
      match run ignoreCase r' s caps (fun _ caps' => Some caps') with
      | Some caps' => k s caps'
      | None => None
      end
  | EndOfInput =>
      match s with
      | "" => k s caps
      | String _ _ => None
      end
  end.

(** A regular-expression literal: its pattern and its [i] flag.  The [g]
    flag is in the choice between [match_first] and [match_all]. *)
Record RegExp := { pattern : regex; ignoreCase : bool }.

(** A match at the start of [s]: the matched text and the captures. *)
Definition match_here (re : RegExp) (s : string) : option (string * captures) :=
  run (ignoreCase re) (pattern re) s ∅ (fun s' caps => Some (consumed s s', caps)).

(** [s.match(re)] for [re] without the [g] flag: the array of the leftmost
    match (the matched text at 0, the captures from 1 on), [None] for
    [null]. *)
Fixpoint match_first (re : RegExp) (s : string) : option captures :=
  match match_here re s with
  | Some (m, caps) => Some (<[0 := m]> caps)
  | None =>
      match s with
      | "" => None
      | String _ s' => match_first re s'
      end
  end.

(** [s.match(re)] for [re] with the [g] flag: the matched texts from left to
    right, each search starting where the last match ended (one character
    further after an empty match).  [skip] counts the characters of the last
    match still to pass.  The empty list stands for [null]. *)
Fixpoint match_all_from (re : RegExp) (skip : nat) (s : string) : list string :=
  match skip with
  | S k =>
      match s with
      | "" => []
      | String _ s' => match_all_from re k s'
      end
  | O =>
      match match_here re s with
      | Some (m, _) =>
          m :: match s with
               | "" => []
               | String _ s' => match_all_from re (String.length m - 1) s'
               end
      | None =>
          match s with
          | "" => []
          | String _ s' => match_all_from re 0 s'
          end
      end
  end.

Definition match_all (re : RegExp) (s : string) : list string :=
  match_all_from re 0 s.

End JS.

(** ** Underscore *)

(** [_.each(list, f)] where [f] updates a variable of the enclosing
    function: the variable is threaded through the calls, and an exception
    in one call ends the loop.  [_.each(null, f)] makes no call. *)
Fixpoint each {A B} (f : A -> B -> result B) (l : list A) (acc : B) : result B :=
  match l with
  | [] => Ok acc
  | x :: l' => acc' ← f x acc; each f l' acc'
  end.

(** The same with the callback's second argument, the index. *)
Fixpoint each_indexed {A B} (f : A -> nat -> B -> result B) (index : nat) (l : list A) (acc : B)
    : result B :=
  match l with
  | [] => Ok acc
  | x :: l' => acc' ← f x index acc; each_indexed f (S index) l' acc'
  end.

(** [_.keys(o)]: the own property names of [o], none when [o] is
    [undefined]. *)
Definition keys (o : option (gmap string string)) : list string :=
  match o with
  | Some m => (map_to_list m).*1
  | None => []
  end.

(** ** The regular expressions of the source *)

Import JS.

(** [WHERE|GROUP BY|ORDER BY|LIMIT|$] *)
Definition keywords : regex :=
  Alt (Chars "WHERE")
    (Alt (Chars "GROUP BY") (Alt (Chars "ORDER BY") (Alt (Chars "LIMIT") EndOfInput))).

(** [/(SELECT)(.+?)(?=FROM)/i] *)
Definition selectRegex : RegExp :=
  {| pattern := Seq (Group 1 (Chars "SELECT"))
                  (Seq (Group 2 (Plus false Dot)) (LookAhead (Chars "FROM")));
     ignoreCase := true |}.

(** [/(FROM)(.+?)(?=WHERE|GROUP BY|ORDER BY|LIMIT|$)/i] *)
Definition fromRegex : RegExp :=
  {| pattern := Seq (Group 1 (Chars "FROM")) (Seq (Group 2 (Plus false Dot)) (LookAhead keywords));
     ignoreCase := true |}.

(** [/(?:WHERE)(.+)/i] *)
Definition whereRegex : RegExp :=
  {| pattern := Seq (NonCapture (Chars "WHERE")) (Group 1 (Plus true Dot)); ignoreCase := true |}.

(** [/[^\s]+/] *)
Definition wordRegex : RegExp :=
  {| pattern := Plus true NotWhiteSpace; ignoreCase := false |}.

(** [/(WHERE|GROUP BY|ORDER BY|LIMIT|$)(.+?)(?=WHERE|GROUP BY|ORDER BY|LIMIT|$)/ig] *)
Definition clauseRegex : RegExp :=
  {| pattern := Seq (Group 1 keywords) (Seq (Group 2 (Plus false Dot)) (LookAhead keywords));
     ignoreCase := true |}.

(** [/(?:GROUP BY)(.+)/i] *)
Definition groupByRegex : RegExp :=
  {| pattern := Seq (NonCapture (Chars "GROUP BY")) (Group 1 (Plus true Dot));
     ignoreCase := true |}.

(** [/(?:ORDER BY)(.+)(?=DESC|ASC)/i] *)
Definition orderByRegex : RegExp :=
  {| pattern := Seq (NonCapture (Chars "ORDER BY"))
                  (Seq (Group 1 (Plus true Dot)) (LookAhead (Alt (Chars "DESC") (Chars "ASC"))));
     ignoreCase := true |}.

(** ** dumbdown.js *)

(** The second half of [splitFields] (line 126):
    [.replace(/\s/g, '').split(',')]. *)
Definition splitList (raw : string) : list string :=
  split "," (strip_white_space raw).

(** [splitFields] (line 126):
    [queryString.match(regex)[returnIdx].replace(/\s/g, '').split(',')] *)
Definition splitFields (queryString : string) (regex : RegExp) (returnIdx : nat)
    : result (list string) :=
  found ← of_defined (match_first regex queryString);
  raw ← of_defined (found !! returnIdx);
  Ok (splitList raw).

(** [commafy] (line 148):
    [!wholeWrapped.length ? wrapped : `${wholeWrapped}, ${wrapped}`] *)
Definition commafy (wholeWrapped wrapped : string) : string :=
  if (String.length wholeWrapped =? 0)%nat then wrapped
  else wholeWrapped +:+ ", " +:+ wrapped.

Section Dumbdown.

Variable fieldMaps : gmap string (gmap string string).

(** The template literal of [dumbifyField] (lines 139 and 141):
    [`{${table}:${fieldMaps[table][field]}}`].  It throws when
    [fieldMaps[table]] is [undefined]; a [fieldMaps[table][field]] that is
    [undefined] is written [undefined]. *)
Definition fieldToken (table field : string) : result string :=
  fields ← of_defined (fieldMaps !! table);
  Ok ("{" +:+ table +:+ ":" +:+ to_string (fields !! field) +:+ "}").

(** [dumbifyField] (lines 135-142) *)
Definition dumbifyField (field : string) (tables : list string) : result string :=
  if contains "." field then
    let tableName := to_string (split "." field !! 0) in
    let fieldName := to_string (split "." field !! 1) in
    fieldToken tableName fieldName
  else fieldToken (to_string (tables !! 0)) field.

(** [wrapSelects] (lines 154-164) *)
Definition wrapSelects (queryString : string) : result string :=
  selectFields ← splitFields queryString selectRegex 2;
  tableList ← splitFields queryString fromRegex 2;
  wrappedSelects ← each (fun field wrappedSelects =>
      wrapped ← (if contains "*" field then Ok field else dumbifyField field tableList);
      Ok (commafy wrappedSelects wrapped)) selectFields "";
  Ok ("SELECT " +:+ wrappedSelects +:+ " ").

(** [wrapFrom] (lines 170-177) *)
Definition wrapFrom (queryString : string) : result string :=
  tables ← splitFields queryString fromRegex 2;
  wrappedFrom ← each (fun table wrappedFrom =>
      Ok (commafy wrappedFrom ("{" +:+ table +:+ "}"))) tables "";
  Ok (" FROM " +:+ wrappedFrom +:+ " ").

(** [wrapSimpleList] (lines 183-192) *)
Definition wrapSimpleList (clause : string) (regex : RegExp) (queryString : string)
    : result string :=
  fields ← splitFields clause regex 1;
  tableList ← splitFields queryString fromRegex 2;
  each (fun field wrappedFields =>
      wrapped ← dumbifyField field tableList;
      Ok (commafy wrappedFields wrapped)) fields "".

(** The two flags of [wrapWhere] (lines 211-216 and 221-226): does [right]
    contain a table of the query, does it contain a field name of the first
    table. *)
Definition isTable (tableList : list string) (right : string) : bool :=
  existsb (fun t => contains t right) tableList.

Definition isField (tableList : list string) (right : string) : bool :=
  existsb (fun f => contains f right) (keys (fieldMaps !! to_string (tableList !! 0))).

(** What [wrapWhere] appends to [expression] after [" = "] for the
    right-hand side of an equality (lines 208-234). *)
Definition wrapRight (right : string) (tableList : list string) : result string :=
  if contains "'" right then Ok right
  else if isTable tableList right then dumbifyField right tableList
  else if isField tableList right then fieldToken (to_string (tableList !! 0)) right
  else Ok right.

(** The [expression] of a clause with an [=] (lines 204-234).  [split]
    gives two pieces or more here, so [right] is a string. *)
Definition wrapEquality (clause : string) (tableList : list string) : result string :=
  match split "=" (strip_white_space clause) with
  | lhs :: rhs :: _ =>
      expression ← dumbifyField lhs tableList;
      wrapped ← wrapRight rhs tableList;
      Ok (expression +:+ " = " +:+ wrapped)
  | _ => Throw TypeError
  end.

(** The [stripped] of a clause without an [=] (lines 237-238). *)
Definition wrapWord (clause : string) (tableList : list string) : result string :=
  found ← of_defined (match_first wordRegex clause);
  word ← of_defined (found !! 0);
  wrapped ← dumbifyField word tableList;
  Ok (replace word wrapped clause).

(** The callback of the loop of [wrapWhere] (lines 202-241). *)
Definition wrapClause (tableList : list string) (clause : string) (index : nat)
    (wrappedWhere : string) : result string :=
  expression ← (if contains "=" clause then wrapEquality clause tableList
                else wrapWord clause tableList);
  Ok (if (index =? 0)%nat then expression
      else wrappedWhere +:+ " AND " +:+ expression +:+ " ").

(** The [smallerClauses] of [wrapWhere] (line 199):
    [whereClause.match(/(?:WHERE)(.+)/i)[1].split('AND')] *)
Definition smallerClauses (whereClause : string) : result (list string) :=
  found ← of_defined (match_first whereRegex whereClause);
  body ← of_defined (found !! 1);
  Ok (split "AND" body).

(** [wrapWhere] (lines 198-243) *)
Definition wrapWhere (whereClause queryString : string) : result string :=
  clauses ← smallerClauses whereClause;
  tableList ← splitFields queryString fromRegex 2;
  each_indexed (wrapClause tableList) 0 clauses "".

(** The direction that follows the fields of an ORDER BY clause (lines
    260-264). *)
Definition direction (clause : string) : string :=
  if contains "asc" (toLowerCase clause) then " ASC"
  else if contains "desc" (toLowerCase clause) then " DESC"
  else "".

(** The callback of the loop of [wrapQualifiers] (lines 253-268). *)
Definition wrapQualifier (queryString clause wrappedQualifiers : string) : result string :=
  if startsWith "where" (toLowerCase clause) then
    wrapped ← wrapWhere clause queryString;
    Ok (wrappedQualifiers +:+ " WHERE " +:+ wrapped +:+ " ")
  else if startsWith "group by" (toLowerCase clause) then
    wrapped ← wrapSimpleList clause groupByRegex queryString;
    Ok (wrappedQualifiers +:+ " GROUP BY " +:+ wrapped +:+ " ")
  else if startsWith "order by" (toLowerCase clause) then
    wrapped ← wrapSimpleList clause orderByRegex queryString;
    Ok (wrappedQualifiers +:+ " ORDER BY " +:+ wrapped +:+ " " +:+ direction clause)
  else Ok (wrappedQualifiers +:+ " " +:+ clause).

(** [wrapQualifiers] (lines 249-271) *)
Definition wrapQualifiers (queryString : string) : result string :=
  let remainingClauses := match_all clauseRegex queryString in
  each (wrapQualifier queryString) remainingClauses "".

(** [dumbdown] (lines 276-281) *)
Definition dumbdown (queryString : string) : result string :=
  selectPortion ← wrapSelects queryString;
  fromPortion ← wrapFrom queryString;
  qualifierPortion ← wrapQualifiers queryString;
  Ok (selectPortion +:+ fromPortion +:+ qualifierPortion).

End Dumbdown.

(** * Vocabulary of the properties *)

(** Every character of [s] satisfies [P]. *)
Fixpoint str_all (P : ascii -> bool) (s : string) : bool :=
  match s with
  | "" => true
  | String c s' => P c && str_all P s'
  end.

Definition no_white_space (s : string) : bool :=
  str_all (fun c => negb (is_white_space c)) s.

Definition no_line_terminator (s : string) : bool :=
  str_all (fun c => negb (is_line_terminator c)) s.

(** [text] is the keyword [kw] in some letter case. *)
Definition is_keyword (kw text : string) : Prop := eat true kw text = Some "".

(** [s] starts with the keyword [kw] in some letter case. *)
Definition starts_with_keyword (kw s : string) : bool :=
  bool_decide (is_Some (eat true kw s)).

(** [s] is where a list of tables ends: the end of the query or one of the
    keywords WHERE, GROUP BY, ORDER BY and LIMIT in some letter case. *)
Definition list_end (s : string) : bool :=
  starts_with_keyword "WHERE" s || starts_with_keyword "GROUP BY" s
  || starts_with_keyword "ORDER BY" s || starts_with_keyword "LIMIT" s
  || bool_decide (s = "").

(** How [wrapFrom] writes a table. *)
Definition braced (table : string) : string := "{" +:+ table +:+ "}".

(** The field maps of the examples of the manual. *)
Definition userFields : gmap string string :=
  {[ "id" := "Id"; "full_name" := "FullName__c"; "first_name" := "FirstName__c";
     "last_name" := "LastName__c" ]}.

Definition meetingsFields : gmap string string :=
  {[ "id" := "Id"; "date" := "Date"; "time" := "Event_Time__c"; "subject" := "Subject__c" ]}.

Definition userMaps : gmap string (gmap string string) := {[ "user" := userFields ]}.

Definition meetingsMaps : gmap string (gmap string string) := {[ "meetings" := meetingsFields ]}.

Definition exampleMaps : gmap string (gmap string string) :=
  {[ "user" := userFields; "meetings" := meetingsFields ]}.

(** [P] holds at no place inside [pre] of the string [pre +:+ rest]. *)
Fixpoint nowhere_inside (P : string -> bool) (pre rest : string) : bool :=
  match pre with
  | "" => true
  | String _ pre' => negb (P (pre +:+ rest)) && nowhere_inside P pre' rest
  end.

(** No occurrence of [sep] starts inside [a] in [a +:+ sep +:+ b]. *)
Definition first_at (sep a b : string) : Prop :=
  forall a1 a2, a = a1 +:+ a2 -> a2 <> "" -> startsWith sep (a2 +:+ sep +:+ b) = false.

(** The text of a list of tables: the names with [", "] between them and a
    space on each side. *)
Definition listed (tables : list string) : string :=
  " " +:+ String.concat ", " tables +:+ " ".

(** The shape of [selectRegex] and [fromRegex]: a keyword, a list read with
    [.+?], and a look-ahead for what ends the list. *)
Definition list_regex (kw : string) (la : regex) : RegExp :=
  {| pattern := Seq (Group 1 (Chars kw)) (Seq (Group 2 (Plus false Dot)) (LookAhead la));
     ignoreCase := true |}.

(** [a] is an ASCII character. *)
Definition is_ascii (a : ascii) : bool := (code a <? 128)%N.

(** All the characters, by their codes. *)
Definition all_chars : list ascii := map ascii_of_nat (seq 0 256).

(** How [wrapSelects] writes the field [f]: a field with a [*] as it is,
    another one as the resolver writes it. *)
Definition selected (fieldMaps : gmap string (gmap string string)) (tables : list string)
    (f : string) : result string :=
  if contains "*" f then Ok f else dumbifyField fieldMaps f tables.

(** How [wrapClause] writes a predicate: an equality, or a word in its
    text. *)
Definition wrapPredicate (fieldMaps : gmap string (gmap string string)) (tableList : list string)
    (clause : string) : result string :=
  if contains "=" clause then wrapEquality fieldMaps clause tableList
  else wrapWord fieldMaps clause tableList.

(** The predicates after the first as [wrapWhere] writes them: each after
    [" AND "] and before a space. *)
Fixpoint and_joined (expressions : list string) : string :=
  match expressions with
  | [] => ""
  | e :: es => " AND " +:+ e +:+ " " +:+ and_joined es
  end.

(** [rest] is where a word ends: the end of the text or white space. *)
Definition word_end (rest : string) : bool :=
  match rest with
  | "" => true
  | String c _ => is_white_space c
  end.

(** [s] starts with DESC or ASC in some letter case. *)
Definition direction_word (s : string) : bool :=
  starts_with_keyword "DESC" s || starts_with_keyword "ASC" s.

(** [kw] is one of the keywords that start a clause after FROM, in some
    letter case. *)
Definition qualifier_keyword (kw : string) : Prop :=
  is_keyword "WHERE" kw \/ is_keyword "GROUP BY" kw \/ is_keyword "ORDER BY" kw \/
  is_keyword "LIMIT" kw.


(** The texts [pieces] one after the other. *)
Definition joined (pieces : list string) : string := foldr String.append "" pieces.

(** * Facts about the string operations *)

Section StringFacts.

Implicit Types (s t p sep : string) (c : ascii).

Lemma str_app_cons c s t : String c s +:+ t = String c (s +:+ t).
Proof. reflexivity. Qed.

Lemma str_app_nil_r s : s +:+ "" = s.
Proof. induction s as [|c s IH]; [done|]. by rewrite str_app_cons, IH. Qed.

Lemma str_app_assoc s t u : (s +:+ t) +:+ u = s +:+ t +:+ u.
Proof. induction s as [|c s IH]; [done|]. by rewrite !str_app_cons, IH. Qed.

Lemma str_length_app s t : String.length (s +:+ t) = String.length s + String.length t.
Proof. induction s as [|c s IH]; [done|]. rewrite str_app_cons. simpl. by rewrite IH. Qed.

Lemma str_take_app s t : str_take (String.length s) (s +:+ t) = s.
Proof. induction s as [|c s IH]; [by destruct t|]. rewrite str_app_cons. simpl. by rewrite IH. Qed.

Lemma str_drop_app s t : str_drop (String.length s) (s +:+ t) = t.
Proof. induction s as [|c s IH]; [by destruct t|]. rewrite str_app_cons. simpl. by rewrite IH. Qed.

Lemma consumed_app s t : consumed (s +:+ t) t = s.
Proof.
  unfold consumed. rewrite str_length_app.
  replace (String.length s + String.length t - String.length t) with (String.length s) by lia.
  apply str_take_app.
Qed.

Lemma startsWith_app p s : startsWith p (p +:+ s) = true.
Proof.
  induction p as [|c p IH]; [by destruct s|].
  rewrite str_app_cons. simpl. rewrite IH. by rewrite Ascii.eqb_refl.
Qed.

Lemma startsWith_inv p s : startsWith p s = true -> s = p +:+ str_drop (String.length p) s.
Proof.
  revert s. induction p as [|c p IH]; intros [|d s] H; simpl in *; try done.
  apply andb_true_iff in H as [Hc Hp]. apply Ascii.eqb_eq in Hc as ->.
  rewrite str_app_cons. f_equal. by apply IH.
Qed.

Lemma contains_unfold p s :
  contains p s = startsWith p s || match s with "" => false | String _ s' => contains p s' end.
Proof.
  unfold contains. destruct s as [|c s]; simpl.
  - by destruct (startsWith p "").
  - destruct (startsWith p (String c s)); simpl; [done|].
    apply bool_decide_ext. by rewrite fmap_is_Some.
Qed.

Lemma contains_false_inv p c s :
  contains p (String c s) = false -> startsWith p (String c s) = false /\ contains p s = false.
Proof. rewrite contains_unfold. intros H. by apply orb_false_iff in H. Qed.

Lemma contains_app_r_false p s t : contains p (s +:+ t) = false -> contains p t = false.
Proof.
  induction s as [|c s IH]; [done|]. rewrite str_app_cons. intros H.
  apply contains_false_inv in H as [_ H]. auto.
Qed.

Lemma contains_app_mid p s t : contains p (s +:+ p +:+ t) = true.
Proof.
  induction s as [|c s IH].
  - rewrite contains_unfold. change ("" +:+ p +:+ t) with (p +:+ t). by rewrite startsWith_app.
  - rewrite str_app_cons, contains_unfold, IH. apply orb_true_r.
Qed.

Lemma startsWith_app_l p s t : startsWith p s = true -> startsWith p (s +:+ t) = true.
Proof.
  revert s. induction p as [|a p IH]; intros [|b s] H; simpl in *; try done.
  rewrite ?str_app_cons. cbn [startsWith]. apply andb_true_iff in H as [-> H]. by apply IH.
Qed.

(** A string with [p] in it is cut at the first [p]. *)
Lemma contains_first p s :
  p <> "" -> contains p s = true -> exists a b, s = a +:+ p +:+ b /\ contains p a = false.
Proof.
  intros Hne. induction s as [|c s IH]; rewrite contains_unfold; intros H.
  - rewrite orb_false_r in H. by destruct p.
  - destruct (startsWith p (String c s)) eqn:Hp.
    + exists "", (str_drop (String.length p) (String c s)). split; [by apply startsWith_inv|].
      by destruct p.
    + destruct (IH H) as (a & b & -> & Ha). exists (String c a), b. split; [done|].
      rewrite contains_unfold, Ha, orb_false_r.
      destruct (startsWith p (String c a)) eqn:Hpa; [|done].
      apply (startsWith_app_l _ _ (p +:+ b)) in Hpa. rewrite str_app_cons in Hpa. congruence.
Qed.

(** *** [split] *)

Lemma split_from_skip sep t s : split_from sep (String.length t) (t +:+ s) = split_from sep 0 s.
Proof.
  induction t as [|c t IH]; [by destruct s|]. rewrite str_app_cons. simpl. apply IH.
Qed.

Lemma split_from_not_nil sep n s : split_from sep n s <> [].
Proof.
  revert n. induction s as [|c s IH]; intros n; simpl; [done|].
  destruct n; [|apply IH].
  destruct (startsWith sep (String c s)); [done|].
  by destruct (split_from sep 0 s).
Qed.

(** A string without the separator is one piece. *)
Lemma split_without sep s : contains sep s = false -> split sep s = [s].
Proof.
  unfold split. induction s as [|c s IH]; intros H; [done|].
  apply contains_false_inv in H as [H1 H2]. simpl in *. rewrite H1, (IH H2). done.
Qed.

Lemma split_first sep a b :
  sep <> "" -> first_at sep a b -> split sep (a +:+ sep +:+ b) = a :: split sep b.
Proof.
  unfold split. intros Hsep. induction a as [|c a IH]; intros Hfirst.
  - destruct sep as [|d sep]; [done|].
    change ("" +:+ String d sep +:+ b) with (String d (sep +:+ b)).
    cbn [split_from].
    change (String d (sep +:+ b)) with (String d sep +:+ b). rewrite startsWith_app.
    replace (String.length (String d sep) - 1) with (String.length sep) by (simpl; lia).
    by rewrite split_from_skip.
  - rewrite str_app_cons. cbn [split_from]. rewrite <- str_app_cons.
    rewrite (Hfirst "" (String c a)); [|done..].
    rewrite IH; [done|].
    intros a1 a2 -> ?. by apply (Hfirst (String c a1) a2).
Qed.

Lemma first_at_char d a b : contains (String d "") a = false -> first_at (String d "") a b.
Proof.
  intros H a1 [|x a2] -> ?; [done|].
  apply contains_app_r_false, contains_false_inv in H as [H _].
  rewrite str_app_cons. simpl in *. done.
Qed.

Lemma first_at_AND a b : contains "AND" a = false -> first_at "AND" a b.
Proof.
  intros H a1 a2 -> ?. apply contains_app_r_false in H.
  destruct a2 as [|x [|y [|z a2]]]; [done|..].
  - rewrite !str_app_cons. cbn [startsWith]. change (Ascii.eqb "N" "A") with false.
    by rewrite andb_false_r.
  - rewrite !str_app_cons. cbn [startsWith]. change (Ascii.eqb "D" "A") with false.
    by rewrite !andb_false_r.
  - apply contains_false_inv in H as [H _]. rewrite !str_app_cons. cbn [startsWith] in *. done.
Qed.

Lemma split_AND_first a b :
  contains "AND" a = false -> split "AND" (a +:+ "AND" +:+ b) = a :: split "AND" b.
Proof. intros H. apply split_first; [done|]. by apply first_at_AND. Qed.

Lemma split_char_first d a b :
  contains (String d "") a = false ->
  split (String d "") (a +:+ String d "" +:+ b) = a :: split (String d "") b.
Proof. intros H. apply split_first; [done|]. by apply first_at_char. Qed.

Lemma str_concat_cons sep x l :
  l <> [] -> String.concat sep (x :: l) = x +:+ sep +:+ String.concat sep l.
Proof. by destruct l. Qed.

(** The pieces put together again with the separator are the string. *)
Lemma str_concat_split_from sep n s :
  sep <> "" -> String.concat sep (split_from sep n s) = str_drop n s.
Proof.
  intros Hsep. revert n. induction s as [|c s IH]; intros n.
  - by destruct n.
  - destruct n as [|n]; cbn [split_from str_drop]; [|apply IH].
    destruct (startsWith sep (String c s)) eqn:Hp.
    + rewrite str_concat_cons by apply split_from_not_nil. rewrite IH.
      apply startsWith_inv in Hp. rewrite Hp at 1.
      destruct sep as [|d sep]; [done|].
      replace (String.length (String d sep) - 1) with (String.length sep) by (simpl; lia).
      done.
    + specialize (IH 0). pose proof (split_from_not_nil sep 0 s) as Hne.
      destruct (split_from sep 0 s) as [|x [|y l]]; [done|..]; cbn [String.concat str_drop] in *.
      * by rewrite IH.
      * rewrite str_app_cons. by rewrite IH.
Qed.

Lemma str_concat_split sep s : sep <> "" -> String.concat sep (split sep s) = s.
Proof. intros H. unfold split. rewrite str_concat_split_from by done. by destruct s. Qed.

Lemma str_all_app P s t : str_all P (s +:+ t) = str_all P s && str_all P t.
Proof.
  induction s as [|c s IH]; [done|]. rewrite str_app_cons. simpl. by rewrite IH, andb_assoc.
Qed.

Lemma strip_white_space_clean s : no_white_space (strip_white_space s) = true.
Proof.
  unfold no_white_space. induction s as [|c s IH]; [done|]. simpl.
  destruct (is_white_space c) eqn:Hc; [done|]. simpl. by rewrite Hc.
Qed.

Lemma strip_white_space_id s : no_white_space s = true -> strip_white_space s = s.
Proof.
  unfold no_white_space. induction s as [|c s IH]; [done|]. simpl.
  intros [Hc Hs]%andb_true_iff. apply negb_true_iff in Hc. rewrite Hc. by rewrite IH.
Qed.

Lemma split_from_all P sep n s :
  str_all P s = true -> Forall (fun piece => str_all P piece = true) (split_from sep n s).
Proof.
  revert n. induction s as [|c s IH]; intros n H.
  - by repeat constructor.
  - simpl in H. apply andb_true_iff in H as [Hc Hs].
    destruct n as [|n]; cbn [split_from]; [|by apply IH].
    destruct (startsWith sep (String c s)); [constructor; [done|by apply IH]|].
    specialize (IH 0 Hs). destruct (split_from sep 0 s) as [|x l].
    + repeat constructor. simpl. by rewrite Hc.
    + inversion_clear IH. constructor; [|done]. simpl. by rewrite Hc.
Qed.

Lemma split_char_pieces d s :
  Forall (fun piece => contains (String d "") piece = false) (split (String d "") s).
Proof.
  unfold split. induction s as [|c s IH]; [by repeat constructor|].
  cbn [split_from String.length]. destruct (startsWith (String d "") (String c s)) eqn:Hd.
  - constructor; [done|]. apply IH.
  - pose proof (split_from_not_nil (String d "") 0 s) as Hne.
    destruct (split_from (String d "") 0 s) as [|x l]; [done|].
    inversion_clear IH. constructor; [|done].
    rewrite contains_unfold. cbn [startsWith] in *. destruct x; by rewrite Hd.
Qed.

End StringFacts.

(** * Facts about the regular expressions *)

Lemma consumed_nil s : consumed s "" = s.
Proof. rewrite <- (str_app_nil_r s) at 1. apply consumed_app. Qed.

Lemma eat_app i p k s : eat i p k = Some "" -> eat i p (k +:+ s) = Some s.
Proof.
  revert k. induction p as [|a p IH]; intros k H; simpl in *.
  - by injection H as ->.
  - destruct k as [|b k]; [done|]. rewrite str_app_cons.
    destruct (char_matches i a b); [by apply IH|done].
Qed.

Lemma plus_greedy_all {A} cl body (k : string -> option A) a :
  body <> "" -> str_all (in_class cl) body = true -> k "" = Some a ->
  plus_greedy cl body k = Some a.
Proof.
  intros Hne Hall Hk. induction body as [|c body IH]; [done|].
  simpl in *. apply andb_true_iff in Hall as [-> Hall].
  destruct body as [|d body]; [by rewrite Hk|]. by rewrite IH.
Qed.

Lemma plus_lazy_stops {A} cl body rest (k : string -> option A) a :
  body <> "" -> str_all (in_class cl) body = true -> k rest = Some a ->
  (forall b1 b2, body = b1 +:+ b2 -> b1 <> "" -> b2 <> "" -> k (b2 +:+ rest) = None) ->
  plus_lazy cl (body +:+ rest) k = Some a.
Proof.
  intros Hne Hall Hk. induction body as [|c body IH]; intros Hnone; [done|].
  rewrite str_app_cons. simpl in *. apply andb_true_iff in Hall as [-> Hall].
  destruct body as [|d body]; [change ("" +:+ rest) with rest; by rewrite Hk|].
  assert (k (String d body +:+ rest) = None) as ->.
  { by apply (Hnone (String c "")). }
  apply IH; [done..|]. intros b1 b2 Hb ??. apply (Hnone (String c b1) b2); [|done..].
  by rewrite str_app_cons, <- Hb.
Qed.

Lemma match_first_skip re pre s :
  (forall p1 p2, pre = p1 +:+ p2 -> p2 <> "" -> match_here re (p2 +:+ s) = None) ->
  match_first re (pre +:+ s) = match_first re s.
Proof.
  induction pre as [|c pre IH]; intros H; [done|].
  rewrite str_app_cons. cbn [match_first]. rewrite <- str_app_cons.
  rewrite (H "" (String c pre)) by done.
  apply IH. intros p1 p2 -> ?. by apply (H (String c p1) p2).
Qed.

Lemma starts_with_keyword_false kw s : starts_with_keyword kw s = false -> eat true kw s = None.
Proof.
  unfold starts_with_keyword. intros H%bool_decide_eq_false.
  destruct (eat true kw s); [|done]. destruct H. by eexists.
Qed.

Lemma starts_with_keyword_true kw s :
  starts_with_keyword kw s = true -> exists s', eat true kw s = Some s'.
Proof. unfold starts_with_keyword. intros [s' H]%bool_decide_eq_true. eauto. Qed.

(** Does [s] start with the keyword [kw]?  In the goal [eat] is rewritten
    to what it gives. *)
Ltac keyword_case kw s :=
  let H := fresh "Hkw" in
  destruct (starts_with_keyword kw s) eqn:H;
  [ apply starts_with_keyword_true in H as [? ->]
  | rewrite (starts_with_keyword_false _ _ H) ].

(** The look-ahead of [fromRegex] and [clauseRegex]. *)
Lemma lookahead_keywords s (caps : captures) :
  run true keywords s caps (fun _ caps' => Some caps') = if list_end s then Some caps else None.
Proof.
  unfold keywords, list_end. cbn [run].
  keyword_case "WHERE" s; [done|].
  keyword_case "GROUP BY" s; [done|].
  keyword_case "ORDER BY" s; [done|].
  keyword_case "LIMIT" s; [done|].
  by destruct s.
Qed.

Lemma match_first_unfold re s :
  match_first re s =
  match match_here re s with
  | Some (m, caps) => Some (<[0 := m]> caps)
  | None => match s with "" => None | String _ s' => match_first re s' end
  end.
Proof. by destruct s. Qed.

(** The expressions that take a list out of a query: a keyword, the list
    read lazily, and a look-ahead that says where the list stops. *)
Section ListRegex.

Variable KW : string.
Variable la : regex.
Variable stop : string -> bool.
Hypothesis Hla : forall s (caps : captures),
  run true la s caps (fun _ caps' => Some caps') = if stop s then Some caps else None.

Lemma match_here_no_keyword s :
  starts_with_keyword KW s = false -> match_here (list_regex KW la) s = None.
Proof.
  intros H. unfold match_here. cbn [run pattern ignoreCase list_regex].
  by rewrite (starts_with_keyword_false _ _ H).
Qed.

Lemma match_here_list kw body rest :
  is_keyword KW kw -> body <> "" -> no_line_terminator body = true -> stop rest = true ->
  (forall b1 b2, body = b1 +:+ b2 -> b1 <> "" -> b2 <> "" -> stop (b2 +:+ rest) = false) ->
  match_here (list_regex KW la) (kw +:+ body +:+ rest)
  = Some (kw +:+ body, <[2 := body]> (<[1 := kw]> ∅)).
Proof.
  intros Hkw Hne Hlt Hstop Hfirst. unfold match_here. cbn [run pattern ignoreCase list_regex].
  rewrite (eat_app _ _ _ _ Hkw). apply plus_lazy_stops; [done..| |].
  - rewrite Hla, Hstop, !consumed_app. by rewrite <- str_app_assoc, consumed_app.
  - intros b1 b2 Hb ??. by rewrite Hla, (Hfirst b1 b2).
Qed.

Lemma match_first_list pre kw body rest :
  (forall p1 p2, pre = p1 +:+ p2 -> p2 <> "" ->
     starts_with_keyword KW (p2 +:+ kw +:+ body +:+ rest) = false) ->
  is_keyword KW kw -> body <> "" -> no_line_terminator body = true -> stop rest = true ->
  (forall b1 b2, body = b1 +:+ b2 -> b1 <> "" -> b2 <> "" -> stop (b2 +:+ rest) = false) ->
  match_first (list_regex KW la) (pre +:+ kw +:+ body +:+ rest)
  = Some (<[0 := kw +:+ body]> (<[2 := body]> (<[1 := kw]> ∅))).
Proof.
  intros Hpre Hkw Hne Hlt Hstop Hfirst. rewrite match_first_skip.
  - by rewrite match_first_unfold, match_here_list.
  - intros p1 p2 Hp ?. apply match_here_no_keyword. by apply (Hpre p1).
Qed.

Lemma splitFields_list pre kw body rest :
  (forall p1 p2, pre = p1 +:+ p2 -> p2 <> "" ->
     starts_with_keyword KW (p2 +:+ kw +:+ body +:+ rest) = false) ->
  is_keyword KW kw -> body <> "" -> no_line_terminator body = true -> stop rest = true ->
  (forall b1 b2, body = b1 +:+ b2 -> b1 <> "" -> b2 <> "" -> stop (b2 +:+ rest) = false) ->
  splitFields (pre +:+ kw +:+ body +:+ rest) (list_regex KW la) 2 = Ok (splitList body).
Proof.
  intros. unfold splitFields. rewrite match_first_list by done. done.
Qed.

End ListRegex.

Lemma splitFields_from pre kw body rest :
  (forall p1 p2, pre = p1 +:+ p2 -> p2 <> "" ->
     starts_with_keyword "FROM" (p2 +:+ kw +:+ body +:+ rest) = false) ->
  is_keyword "FROM" kw -> body <> "" -> no_line_terminator body = true -> list_end rest = true ->
  (forall b1 b2, body = b1 +:+ b2 -> b1 <> "" -> b2 <> "" -> list_end (b2 +:+ rest) = false) ->
  splitFields (pre +:+ kw +:+ body +:+ rest) fromRegex 2 = Ok (splitList body).
Proof. apply (splitFields_list "FROM" keywords list_end lookahead_keywords). Qed.

Lemma lookahead_from s (caps : captures) :
  run true (Chars "FROM") s caps (fun _ caps' => Some caps')
  = if starts_with_keyword "FROM" s then Some caps else None.
Proof. cbn [run]. by keyword_case "FROM" s. Qed.

Lemma splitFields_select pre kw body rest :
  (forall p1 p2, pre = p1 +:+ p2 -> p2 <> "" ->
     starts_with_keyword "SELECT" (p2 +:+ kw +:+ body +:+ rest) = false) ->
  is_keyword "SELECT" kw -> body <> "" -> no_line_terminator body = true ->
  starts_with_keyword "FROM" rest = true ->
  (forall b1 b2, body = b1 +:+ b2 -> b1 <> "" -> b2 <> "" ->
     starts_with_keyword "FROM" (b2 +:+ rest) = false) ->
  splitFields (pre +:+ kw +:+ body +:+ rest) selectRegex 2 = Ok (splitList body).
Proof.
  apply (splitFields_list "SELECT" (Chars "FROM") (starts_with_keyword "FROM") lookahead_from).
Qed.

(** * The resolver *)

Lemma split_dot_field table fieldName more :
  contains "." table = false -> contains "." fieldName = false ->
  more = "" \/ startsWith "." more = true ->
  split "." (table +:+ "." +:+ fieldName +:+ more) !! 0 = Some table /\
  split "." (table +:+ "." +:+ fieldName +:+ more) !! 1 = Some fieldName.
Proof.
  intros Ht Hf Hmore. rewrite split_char_first by done. split; [done|].
  destruct Hmore as [->|Hmore].
  - rewrite str_app_nil_r. by rewrite split_without.
  - apply startsWith_inv in Hmore. rewrite Hmore.
    by rewrite split_char_first.
Qed.

Lemma dumbifyField_qualified fieldMaps table fieldName more tables :
  contains "." table = false -> contains "." fieldName = false ->
  more = "" \/ startsWith "." more = true ->
  dumbifyField fieldMaps (table +:+ "." +:+ fieldName +:+ more) tables
  = fieldToken fieldMaps table fieldName.
Proof.
  intros Ht Hf Hmore. unfold dumbifyField. rewrite contains_app_mid.
  destruct (split_dot_field table fieldName more Ht Hf Hmore) as [-> ->]. done.
Qed.

Lemma dumbifyField_bare fieldMaps field tables table0 :
  contains "." field = false -> tables !! 0 = Some table0 ->
  dumbifyField fieldMaps field tables = fieldToken fieldMaps table0 field.
Proof. intros Hf Ht. unfold dumbifyField. by rewrite Hf, Ht. Qed.

(** Every token with a [.] has the parts that [dumbifyField] reads. *)
Lemma dotted_token_parts token :
  contains "." token = true ->
  exists table fieldName more,
    token = table +:+ "." +:+ fieldName +:+ more /\
    contains "." table = false /\ contains "." fieldName = false /\
    (more = "" \/ startsWith "." more = true).
Proof.
  intros (table & r & -> & Htable)%contains_first; [|done].
  destruct (contains "." r) eqn:Hr.
  - apply contains_first in Hr as (fieldName & b & -> & Hfield); [|done].
    exists table, fieldName, ("." +:+ b). auto.
  - exists table, r, "". rewrite str_app_nil_r. auto.
Qed.

(** C4: for a token and a non-empty table list whose entries of the field
    map exist, the resolver returns [{table:FieldMap[table][fieldName]}] for
    a token with a [.], where [table] is what stands before the first [.]
    and [fieldName] what stands between it and the next one or the end, and
    [{tables[0]:FieldMap[tables[0]][token]}] for a token without. *)
Theorem dumbifyField_resolves fieldMaps token tables table0 :
  tables !! 0 = Some table0 ->
  (forall table fieldName more fields vendor,
     token = table +:+ "." +:+ fieldName +:+ more ->
     contains "." table = false -> contains "." fieldName = false ->
     more = "" \/ startsWith "." more = true ->
     fieldMaps !! table = Some fields -> fields !! fieldName = Some vendor ->
     dumbifyField fieldMaps token tables = Ok ("{" +:+ table +:+ ":" +:+ vendor +:+ "}")) /\
  (forall fields vendor,
     contains "." token = false ->
     fieldMaps !! table0 = Some fields -> fields !! token = Some vendor ->
     dumbifyField fieldMaps token tables = Ok ("{" +:+ table0 +:+ ":" +:+ vendor +:+ "}")).
Proof.
  intros Htables. split.
  - intros table fieldName more fields vendor -> Ht Hf Hmore Hfields Hvendor.
    rewrite dumbifyField_qualified by done. unfold fieldToken.
    rewrite Hfields. simpl. by rewrite Hvendor.
  - intros fields vendor Hdot Hfields Hvendor.
    rewrite (dumbifyField_bare _ _ _ table0) by done. unfold fieldToken.
    rewrite Hfields. simpl. by rewrite Hvendor.
Qed.

Lemma dumbifyField_resolves_witness :
  dumbifyField exampleMaps "user.full_name" ["meetings"; "user"] = Ok "{user:FullName__c}" /\
  dumbifyField exampleMaps "time" ["meetings"; "user"] = Ok "{meetings:Event_Time__c}".
Proof.
  split.
  - apply (proj1 (dumbifyField_resolves exampleMaps "user.full_name" ["meetings"; "user"]
                    "meetings" eq_refl) "user" "full_name" "" userFields "FullName__c");
      [reflexivity | reflexivity | reflexivity | by left | reflexivity | reflexivity].
  - apply (proj2 (dumbifyField_resolves exampleMaps "time" ["meetings"; "user"]
                    "meetings" eq_refl) meetingsFields "Event_Time__c");
      reflexivity.
Defined.






(** * The WHERE clause *)

Lemma smallerClauses_body kw body :
  is_keyword "WHERE" kw -> body <> "" -> no_line_terminator body = true ->
  smallerClauses (kw +:+ body) = Ok (split "AND" body).
Proof.
  intros Hkw Hne Hlt. unfold smallerClauses.
  assert (match_here whereRegex (kw +:+ body) = Some (kw +:+ body, <[1 := body]> ∅)) as Hm.
  { unfold match_here. cbn [run pattern ignoreCase whereRegex].
    rewrite (eat_app _ _ _ _ Hkw). apply plus_greedy_all; [done..|].
    by rewrite !consumed_nil. }
  rewrite match_first_unfold, Hm. done.
Qed.

Lemma isTable_true tableList rhs :
  isTable tableList rhs = true <-> exists t, t ∈ tableList /\ contains t rhs = true.
Proof.
  unfold isTable. rewrite existsb_exists. by setoid_rewrite list_elem_of_In.
Qed.

Lemma elem_of_keys (fields : gmap string string) f :
  f ∈ keys (Some fields) <-> is_Some (fields !! f).
Proof.
  unfold keys. rewrite list_elem_of_fmap. split.
  - intros [[k v] [-> Hkv]]. apply elem_of_map_to_list in Hkv. by eexists.
  - intros [v Hv]. exists (f, v). split; [done|]. by apply elem_of_map_to_list.
Qed.

Lemma isField_true fieldMaps tableList rhs :
  isField fieldMaps tableList rhs = true <->
  exists fields f, fieldMaps !! to_string (tableList !! 0) = Some fields /\
                   is_Some (fields !! f) /\ contains f rhs = true.
Proof.
  unfold isField. rewrite existsb_exists. setoid_rewrite <- list_elem_of_In. split.
  - intros [f [Hf Hc]]. destruct (fieldMaps !! to_string (tableList !! 0)) as [fields|] eqn:E.
    + exists fields, f. by rewrite <- elem_of_keys.
    + by apply elem_of_nil in Hf.
  - intros (fields & f & -> & Hf & Hc). exists f. by rewrite elem_of_keys.
Qed.

(** C5: the right-hand side of an equality of a WHERE clause is classified
    by what it contains, in this order: with a quote it is kept as it is;
    else with the name of a table of the table list it goes through the
    resolver; else with a field name of the first table it becomes
    [{tables[0]:FieldMap[tables[0]][right]}]; else it is kept as it is. *)
Theorem wrapEquality_right_hand_side fieldMaps clause tableList lhs rhs more expression :
  split "=" (strip_white_space clause) = lhs :: rhs :: more ->
  dumbifyField fieldMaps lhs tableList = Ok expression ->
  let table0 := to_string (tableList !! 0) in
  let quoted := contains "'" rhs = true in
  let names_table := exists t, t ∈ tableList /\ contains t rhs = true in
  let names_field fields := exists f, is_Some (fields !! f) /\ contains f rhs = true in
  (quoted ->
     wrapEquality fieldMaps clause tableList = Ok (expression +:+ " = " +:+ rhs)) /\
  (~ quoted -> names_table ->
     wrapEquality fieldMaps clause tableList
     = wrapped ← dumbifyField fieldMaps rhs tableList; Ok (expression +:+ " = " +:+ wrapped)) /\
  (~ quoted -> ~ names_table ->
     forall fields, fieldMaps !! table0 = Some fields -> names_field fields ->
     wrapEquality fieldMaps clause tableList
     = Ok (expression +:+ " = " +:+
           "{" +:+ table0 +:+ ":" +:+ to_string (fields !! rhs) +:+ "}")) /\
  (~ quoted -> ~ names_table ->
     (forall fields, fieldMaps !! table0 = Some fields -> ~ names_field fields) ->
     wrapEquality fieldMaps clause tableList = Ok (expression +:+ " = " +:+ rhs)).
Proof.
  intros Hsplit Hlhs. cbv zeta.
  unfold wrapEquality. rewrite Hsplit, Hlhs. cbn [mbind result_bind]. unfold wrapRight.
  repeat split.
  - intros ->. done.
  - intros Hq%not_true_is_false Ht%isTable_true. by rewrite Hq, Ht.
  - intros Hq%not_true_is_false Ht fields Hfields Hf.
    rewrite Hq. rewrite <- isTable_true in Ht. apply not_true_is_false in Ht. rewrite Ht.
    assert (isField fieldMaps tableList rhs = true) as ->.
    { apply isField_true. destruct Hf as (f & ? & ?). by exists fields, f. }
    unfold fieldToken. by rewrite Hfields.
  - intros Hq%not_true_is_false Ht Hf.
    rewrite Hq. rewrite <- isTable_true in Ht. apply not_true_is_false in Ht. rewrite Ht.
    assert (isField fieldMaps tableList rhs = false) as ->; [|done].
    apply not_true_is_false. intros (fields & f & Hfields & ? & ?)%isField_true.
    apply (Hf fields Hfields). by exists f.
Qed.

Lemma wrapEquality_right_hand_side_witness :
  wrapEquality exampleMaps " first_name = 'John' " ["user"] = Ok "{user:FirstName__c} = 'John'" /\
  wrapEquality exampleMaps " user.id = meetings.id" ["user"; "meetings"]
  = Ok "{user:Id} = {meetings:Id}" /\
  wrapEquality exampleMaps " id = full_name " ["user"] = Ok "{user:Id} = {user:FullName__c}" /\
  wrapEquality exampleMaps " id = 42 " ["user"] = Ok "{user:Id} = 42".
Proof.
  assert (forall rhs, contains "user" rhs = false ->
            ~ exists t, t ∈ ["user"] /\ contains t rhs = true) as Hno_table.
  { intros rhs Hrhs (t & ->%list_elem_of_singleton & Ht). congruence. }
  split; [|split; [|split]].
  - apply (proj1 (wrapEquality_right_hand_side exampleMaps " first_name = 'John' " ["user"]
                    "first_name" "'John'" [] "{user:FirstName__c}" eq_refl eq_refl)).
    reflexivity.
  - apply (proj1 (proj2 (wrapEquality_right_hand_side exampleMaps " user.id = meetings.id"
                    ["user"; "meetings"] "user.id" "meetings.id" [] "{user:Id}" eq_refl eq_refl))).
    + discriminate.
    + exists "meetings". split; [|reflexivity]. apply list_elem_of_In. simpl. tauto.
  - apply (proj1 (proj2 (proj2 (wrapEquality_right_hand_side exampleMaps " id = full_name "
                    ["user"] "id" "full_name" [] "{user:Id}" eq_refl eq_refl)))
             ltac:(discriminate) (Hno_table "full_name" eq_refl) userFields eq_refl).
    exists "full_name". split; [by eexists|reflexivity].
  - apply (proj2 (proj2 (proj2 (wrapEquality_right_hand_side exampleMaps " id = 42 " ["user"]
                    "id" "42" [] "{user:Id}" eq_refl eq_refl)))).
    + discriminate.
    + by apply Hno_table.
    + intros fields [= <-] (f & Hf%elem_of_keys & Hc). vm_compute in Hf.
      repeat (apply list_elem_of_In in Hf; destruct Hf as [<-|Hf]; [discriminate|];
              apply list_elem_of_In in Hf).
      by apply elem_of_nil in Hf.
Defined.



(** C9: the split of a WHERE clause is a split of its text: the first [AND]
    of the text ends a predicate whatever stands around it, and the rest is
    split in the same way, so every [AND] is a delimiter, also one inside a
    quoted literal or an identifier. *)
Theorem smallerClauses_at_every_AND kw a b :
  is_keyword "WHERE" kw -> no_line_terminator a = true -> no_line_terminator b = true ->
  contains "AND" a = false ->
  smallerClauses (kw +:+ a +:+ "AND" +:+ b) = Ok (a :: split "AND" b).
Proof.
  intros Hkw Ha Hb Hand. rewrite smallerClauses_body; [|done|by destruct a|].
  - by rewrite split_AND_first.
  - unfold no_line_terminator in *. by rewrite !str_all_app, Ha, Hb.
Qed.

Lemma smallerClauses_at_every_AND_witness :
  smallerClauses "WHERE name = 'SANDY' AND BRAND_ID = 1"
  = Ok [" name = 'S"; "Y' "; " BR"; "_ID = 1"].
Proof.
  apply (smallerClauses_at_every_AND "WHERE" " name = 'S" "Y' AND BRAND_ID = 1"); reflexivity.
Defined.

(** * The list splitter *)

(** C7, as amended: the list splitter takes the white space out of its
    input and splits the rest at the commas: no entry holds white space or a
    comma, and the entries joined by commas are the input without its white
    space.  The result is never empty: for the empty input, and for an input
    of white space only, it is one entry, the empty string. *)
Theorem splitList_entries raw :
  String.concat "," (splitList raw) = strip_white_space raw /\
  Forall (fun entry => no_white_space entry = true /\ contains "," entry = false)
    (splitList raw) /\
  splitList raw <> [] /\
  (strip_white_space raw = "" -> splitList raw = [""]).
Proof.
  unfold splitList. repeat split.
  - by apply str_concat_split.
  - apply Forall_and. split; [|apply split_char_pieces].
    apply split_from_all, strip_white_space_clean.
  - apply split_from_not_nil.
  - by intros ->.
Qed.

(** C7, as stated, fails: the empty input gives one entry, the empty
    string, and so does the field list of a query without fields. *)
Lemma splitList_empty_input :
  splitList "" = [""] /\ length (splitList "") = 1 /\
  splitFields "SELECT FROM user" selectRegex 2 = Ok [""].
Proof. repeat split; reflexivity. Qed.

(** * Where the lists end *)

Lemma nowhere_inside_suffix P pre rest :
  nowhere_inside P pre rest = true ->
  forall p1 p2, pre = p1 +:+ p2 -> p2 <> "" -> P (p2 +:+ rest) = false.
Proof.
  induction pre as [|c pre IH]; intros H p1 p2 Hp Hne.
  - destruct p1; [by subst|done].
  - cbn [nowhere_inside] in H. apply andb_true_iff in H as [H1 H2].
    destruct p1 as [|d p1].
    + change ("" +:+ p2) with p2 in Hp. subst p2. by apply negb_true_iff in H1.
    + rewrite str_app_cons in Hp. injection Hp as _ Hp. by apply (IH H2 p1).
Qed.

Lemma nowhere_inside_tail P body rest :
  nowhere_inside P (str_drop 1 body) rest = true ->
  forall b1 b2, body = b1 +:+ b2 -> b1 <> "" -> b2 <> "" -> P (b2 +:+ rest) = false.
Proof.
  intros H b1 b2 Hb Hb1 Hb2. destruct b1 as [|c b1]; [done|]. subst body.
  rewrite str_app_cons in H. cbn [str_drop] in H. by apply (nowhere_inside_suffix _ _ _ H b1).
Qed.

(** C10: the field list of SELECT and the table list of FROM end at the
    first place, after their first character, where FROM (for the fields)
    or WHERE, GROUP BY, ORDER BY or LIMIT (for the tables) stands in some
    letter case, whatever stands before and after the keyword.  So the
    table [user_limits] is read as [user_], and a field list with the field
    [fromage] ends before that field. *)
Theorem lists_end_at_first_keyword :
  (forall pre kw body rest,
     nowhere_inside (starts_with_keyword "SELECT") pre (kw +:+ body +:+ rest) = true ->
     is_keyword "SELECT" kw ->
     body <> "" -> no_line_terminator body = true ->
     starts_with_keyword "FROM" rest = true ->
     nowhere_inside (starts_with_keyword "FROM") (str_drop 1 body) rest = true ->
     splitFields (pre +:+ kw +:+ body +:+ rest) selectRegex 2 = Ok (splitList body)) /\
  (forall pre kw body rest,
     nowhere_inside (starts_with_keyword "FROM") pre (kw +:+ body +:+ rest) = true ->
     is_keyword "FROM" kw ->
     body <> "" -> no_line_terminator body = true ->
     list_end rest = true ->
     nowhere_inside list_end (str_drop 1 body) rest = true ->
     splitFields (pre +:+ kw +:+ body +:+ rest) fromRegex 2 = Ok (splitList body)) /\
  splitFields "SELECT id, fromage FROM user" selectRegex 2 = Ok ["id"; ""] /\
  splitFields "SELECT id FROM user_limits" fromRegex 2 = Ok ["user_"].
Proof.
  split; [|split; [|split; reflexivity]].
  - intros pre kw body rest Hpre Hkw Hne Hlt Hstop Hbody.
    apply splitFields_select; try done.
    + by apply nowhere_inside_suffix.
    + by apply nowhere_inside_tail.
  - intros pre kw body rest Hpre Hkw Hne Hlt Hstop Hbody.
    apply splitFields_from; try done.
    + by apply nowhere_inside_suffix.
    + by apply nowhere_inside_tail.
Qed.

Lemma lists_end_at_first_keyword_witness :
  splitFields ("" +:+ "SELECT" +:+ " id, " +:+ "fromage FROM user") selectRegex 2 = Ok ["id"; ""] /\
  splitFields ("SELECT id " +:+ "FROM" +:+ " user_" +:+ "limits") fromRegex 2 = Ok ["user_"].
Proof.
  split.
  - apply (proj1 lists_end_at_first_keyword "" "SELECT" " id, " "fromage FROM user");
      [reflexivity | reflexivity | discriminate | reflexivity | reflexivity | reflexivity].
  - apply (proj1 (proj2 lists_end_at_first_keyword) "SELECT id " "FROM" " user_" "limits");
      [reflexivity | reflexivity | discriminate | reflexivity | reflexivity | reflexivity].
Defined.

(** * The FROM clause *)

Lemma commafy_first wrapped : commafy "" wrapped = wrapped.
Proof. reflexivity. Qed.

Lemma commafy_next wholeWrapped wrapped :
  wholeWrapped <> "" -> commafy wholeWrapped wrapped = wholeWrapped +:+ ", " +:+ wrapped.
Proof. by destruct wholeWrapped. Qed.

Lemma each_commafy_from {A} (f : A -> string) l acc :
  (forall x, f x <> "") -> acc <> "" ->
  each (fun x wrapped => Ok (commafy wrapped (f x))) l acc
  = Ok (String.concat ", " (acc :: map f l)).
Proof.
  intros Hf. revert acc. induction l as [|x l IH]; intros acc Hacc; [done|].
  cbn [each mbind result_bind map]. rewrite commafy_next by done.
  rewrite IH by (by destruct acc). f_equal. rewrite (str_concat_cons _ acc) by done.
  destruct l as [|y l]; [done|]. cbn [map]. rewrite !str_concat_cons by done.
  by rewrite !str_app_assoc.
Qed.

Lemma each_commafy {A} (f : A -> string) l :
  (forall x, f x <> "") ->
  each (fun x wrapped => Ok (commafy wrapped (f x))) l "" = Ok (String.concat ", " (map f l)).
Proof.
  intros Hf. destruct l as [|x l]; [done|].
  cbn [each mbind result_bind map]. rewrite commafy_first.
  by apply each_commafy_from.
Qed.

Lemma wrapFrom_each tables :
  each (fun table wrappedFrom => Ok (commafy wrappedFrom ("{" +:+ table +:+ "}"))) tables ""
  = Ok (String.concat ", " (map braced tables)).
Proof. by apply (each_commafy braced). Qed.



Lemma split_concat d l :
  l <> [] -> Forall (fun t => contains (String d "") t = false) l ->
  split (String d "") (String.concat (String d "") l) = l.
Proof.
  intros Hne Hl. induction Hl as [|t l Ht Hl IH]; [done|].
  destruct l as [|t' l]; [by apply split_without|].
  rewrite str_concat_cons by done. rewrite split_char_first by done. by rewrite IH.
Qed.

Lemma strip_white_space_app s t :
  strip_white_space (s +:+ t) = strip_white_space s +:+ strip_white_space t.
Proof.
  induction s as [|c s IH]; [done|]. rewrite str_app_cons. simpl.
  destruct (is_white_space c); [done|]. by rewrite IH.
Qed.

Lemma strip_white_space_concat l :
  Forall (fun t => no_white_space t = true) l ->
  strip_white_space (String.concat ", " l) = String.concat "," l.
Proof.
  induction 1 as [|t l Ht Hl IH]; [done|].
  destruct l as [|t' l]; [by apply strip_white_space_id|].
  rewrite !str_concat_cons by done. rewrite !strip_white_space_app, IH.
  by rewrite strip_white_space_id.
Qed.

Lemma line_terminator_is_white_space c : is_line_terminator c = true -> is_white_space c = true.
Proof. destruct c as [[] [] [] [] [] [] [] []]; vm_compute; congruence. Qed.

Lemma no_white_space_no_line_terminator s :
  no_white_space s = true -> no_line_terminator s = true.
Proof.
  unfold no_white_space, no_line_terminator. induction s as [|c s IH]; [done|]. simpl.
  intros [Hc Hs]%andb_true_iff. rewrite IH by done. rewrite andb_true_r.
  destruct (is_line_terminator c) eqn:E; [|done].
  apply line_terminator_is_white_space in E. by rewrite E in Hc.
Qed.

Lemma no_line_terminator_app s t :
  no_line_terminator (s +:+ t) = no_line_terminator s && no_line_terminator t.
Proof. apply str_all_app. Qed.

Lemma no_line_terminator_concat l :
  Forall (fun t => no_white_space t = true) l ->
  no_line_terminator (String.concat ", " l) = true.
Proof.
  induction 1 as [|t l Ht Hl IH]; [done|].
  destruct l as [|t' l]; [by apply no_white_space_no_line_terminator|].
  rewrite str_concat_cons by done. rewrite !no_line_terminator_app, IH.
  by rewrite no_white_space_no_line_terminator.
Qed.

Lemma splitList_listed tables :
  tables <> [] ->
  Forall (fun t => no_white_space t = true /\ contains "," t = false) tables ->
  splitList (listed tables) = tables.
Proof.
  intros Hne [Hws Hcomma]%Forall_and. unfold splitList, listed.
  rewrite !strip_white_space_app, strip_white_space_concat by done.
  change (strip_white_space " ") with "". rewrite str_app_nil_r.
  by apply split_concat.
Qed.

(** X2: a FROM clause that lists the tables [t1], [t2], ... as [t1, t2, ...],
    names without white space and commas, up to the next keyword or the end
    of the query, is rewritten to [" FROM {t1}, {t2}, ... "]. *)
Theorem wrapFrom_listed pre kw tables rest :
  nowhere_inside (starts_with_keyword "FROM") pre (kw +:+ listed tables +:+ rest) = true ->
  is_keyword "FROM" kw ->
  tables <> [] ->
  Forall (fun t => no_white_space t = true /\ contains "," t = false) tables ->
  list_end rest = true ->
  nowhere_inside list_end (str_drop 1 (listed tables)) rest = true ->
  wrapFrom (pre +:+ kw +:+ listed tables +:+ rest)
  = Ok (" FROM " +:+ String.concat ", " (map braced tables) +:+ " ").
Proof.
  intros Hpre Hkw Hne Htables Hrest Hbody. unfold wrapFrom.
  rewrite splitFields_from; try done.
  - rewrite splitList_listed by done. cbn [mbind result_bind]. by rewrite wrapFrom_each.
  - by apply nowhere_inside_suffix.
  - unfold listed. rewrite !no_line_terminator_app.
    apply Forall_and in Htables as [Hws _]. by rewrite (no_line_terminator_concat tables Hws).
  - by apply nowhere_inside_tail.
Qed.

Lemma wrapFrom_listed_witness :
  wrapFrom "select * from user, profile where user.id = profile.user_id"
  = Ok " FROM {user}, {profile} ".
Proof.
  apply (wrapFrom_listed "select * " "from" ["user"; "profile"] "where user.id = profile.user_id");
    [reflexivity | reflexivity | discriminate | | reflexivity | reflexivity].
  repeat constructor.
Defined.

(** * The examples *)

(** The source on small inputs. *)

Example dumbifyField_two_dots :
  dumbifyField exampleMaps "user.id.more" ["meetings"] = Ok "{user:Id}".
Proof. reflexivity. Qed.

Example dumbdown_join_example :
  dumbdown exampleMaps "SELECT user.id, meetings.date FROM user, meetings WHERE user.id = meetings.id"
  = Ok "SELECT {user:Id}, {meetings:Date}  FROM {user}, {meetings}  WHERE {user:Id} = {meetings:Id} ".
Proof. vm_compute. reflexivity. Qed.

Example dumbdown_lower_case_and :
  dumbdown userMaps "select id from user where first_name = 'a' and last_name = 'b'"
  = Ok "SELECT {user:Id}  FROM {user}  WHERE {user:FirstName__c} = 'a'andlast_name ".
Proof. vm_compute. reflexivity. Qed.

Example dumbdown_AND_in_literal :
  dumbdown userMaps "SELECT id FROM user WHERE first_name = 'SANDY'"
  = Ok "SELECT {user:Id}  FROM {user}  WHERE {user:FirstName__c} = 'S AND {user:undefined}  ".
Proof. vm_compute. reflexivity. Qed.

Example dumbdown_order_by_with_direction :
  dumbdown meetingsMaps "SELECT id FROM meetings ORDER BY time DESC LIMIT 3"
  = Ok "SELECT {meetings:Id}  FROM {meetings}  ORDER BY {meetings:Event_Time__c}  DESC LIMIT 3".
Proof. vm_compute. reflexivity. Qed.

Example dumbdown_keyword_in_table_name :
  dumbdown userMaps "SELECT id FROM user_limits" = Throw TypeError.
Proof. vm_compute. reflexivity. Qed.

(** C1: the first example of the manual.  The text [dumbdown] returns has
    the tokens of the text the specification gives, in the same order; the
    two differ in the white space before LIMIT only. *)
Theorem dumbdown_where_example :
  dumbdown userMaps
    "SELECT id, full_name FROM user WHERE first_name = 'John' AND last_name = 'Smith' LIMIT 100"
  = Ok "SELECT {user:Id}, {user:FullName__c}  FROM {user}  WHERE {user:FirstName__c} = 'John' AND {user:LastName__c} = 'Smith'   LIMIT 100"
  /\ String.words
       "SELECT {user:Id}, {user:FullName__c}  FROM {user}  WHERE {user:FirstName__c} = 'John' AND {user:LastName__c} = 'Smith'   LIMIT 100"
     = String.words
         "SELECT {user:Id}, {user:FullName__c}  FROM {user}  WHERE {user:FirstName__c} = 'John' AND {user:LastName__c} = 'Smith'  LIMIT 100".
Proof. split; vm_compute; reflexivity. Qed.

(** C2: the third example of the manual, an ORDER BY clause without a
    direction.  The manual gives its output; [dumbdown] throws, since
    [orderByRegex] needs ASC or DESC after the fields. *)
Theorem dumbdown_order_by_example :
  dumbdown meetingsMaps "SELECT id, date, time, subject FROM meetings GROUP BY date ORDER BY time"
  = Throw TypeError.
Proof. vm_compute. reflexivity. Qed.

(** * ORDER BY without a direction *)

Lemma to_lower_of_match a b :
  In a ["A"; "S"; "C"; "D"; "E"]%char -> char_matches true a b = true -> to_lower b = to_lower a.
Proof.
  intros Ha Hm. repeat (destruct Ha as [<-|Ha]; [revert Hm|]); [..|done];
    destruct b as [[] [] [] [] [] [] [] []]; vm_compute; congruence.
Qed.

Lemma toLowerCase_of_eat p s r :
  (forall a, In a (String.list_ascii_of_string p) -> In a ["A"; "S"; "C"; "D"; "E"]%char) ->
  eat true p s = Some r -> startsWith (toLowerCase p) (toLowerCase s) = true.
Proof.
  revert s. induction p as [|a p IH]; intros s Hp He; [done|].
  destruct s as [|b s]; [done|]. cbn [eat] in He.
  destruct (char_matches true a b) eqn:Hab; [|done].
  cbn [toLowerCase startsWith].
  rewrite (to_lower_of_match a b), Ascii.eqb_refl; [|apply Hp; by left|done].
  apply IH; [|done]. intros a' Ha'. apply Hp. by right.
Qed.

Lemma toLowerCase_app s t : toLowerCase (s +:+ t) = toLowerCase s +:+ toLowerCase t.
Proof. induction s as [|c s IH]; [done|]. rewrite str_app_cons. simpl. by rewrite IH. Qed.

Lemma contains_false_startsWith p s : contains p s = false -> startsWith p s = false.
Proof. rewrite contains_unfold. by intros [? _]%orb_false_iff. Qed.

(** No place of a clause without [asc] and [desc] passes the look-ahead of
    [orderByRegex]. *)
Lemma lookahead_direction_fails clause s1 s2 :
  direction clause = "" -> clause = s1 +:+ s2 ->
  eat true "DESC" s2 = None /\ eat true "ASC" s2 = None.
Proof.
  unfold direction. intros Hdir ->.
  destruct (contains "asc" _) eqn:Hasc; [done|].
  destruct (contains "desc" _) eqn:Hdesc; [done|].
  rewrite toLowerCase_app in Hasc, Hdesc.
  apply contains_app_r_false, contains_false_startsWith in Hasc, Hdesc.
  split.
  - destruct (eat true "DESC" s2) eqn:E; [|done].
    apply toLowerCase_of_eat in E; [|simpl; tauto].
    change (toLowerCase "DESC") with "desc" in E. congruence.
  - destruct (eat true "ASC" s2) eqn:E; [|done].
    apply toLowerCase_of_eat in E; [|simpl; tauto].
    change (toLowerCase "ASC") with "asc" in E. congruence.
Qed.

Lemma plus_greedy_none {A} cl s (k : string -> option A) :
  (forall s1 s2, s = s1 +:+ s2 -> k s2 = None) -> plus_greedy cl s k = None.
Proof.
  induction s as [|c s IH]; intros Hk; [done|]. cbn [plus_greedy].
  destruct (in_class cl c); [|done].
  rewrite IH; [by apply (Hk (String c ""))|].
  intros s1 s2 ->. by apply (Hk (String c s1)).
Qed.

Lemma eat_suffix i p s r : eat i p s = Some r -> exists pre, s = pre +:+ r.
Proof.
  revert s. induction p as [|a p IH]; intros s H; simpl in H.
  - injection H as ->. by exists "".
  - destruct s as [|b s]; [done|]. destruct (char_matches i a b); [|done].
    destruct (IH _ H) as [pre ->]. by exists (String b pre).
Qed.

Lemma orderByRegex_needs_direction clause :
  direction clause = "" -> match_first orderByRegex clause = None.
Proof.
  intros Hdir.
  assert (forall s1 s2, clause = s1 +:+ s2 -> match_first orderByRegex s2 = None) as H;
    [|by apply (H "")].
  intros s1 s2. revert s1. induction s2 as [|c s2 IH]; intros s1 Hs.
  - done.
  - assert (match_here orderByRegex (String c s2) = None) as Hhere.
    { unfold match_here. cbn [run pattern ignoreCase orderByRegex].
      destruct (eat true "ORDER BY" (String c s2)) as [r|] eqn:He; [|done].
      apply eat_suffix in He as [pre Hpre]. apply plus_greedy_none.
      intros r1 r2 ->.
      destruct (lookahead_direction_fails clause (s1 +:+ pre +:+ r1) r2) as [-> ->]; [done| |done].
      by rewrite Hs, Hpre, !str_app_assoc. }
    cbn [match_first]. rewrite Hhere. apply (IH (s1 +:+ String c "")).
    by rewrite Hs, str_app_assoc.
Qed.

Lemma each_throws {A B} (f : A -> B -> result B) l x :
  x ∈ l -> (forall acc, f x acc = Throw TypeError) ->
  forall acc, each f l acc = Throw TypeError.
Proof.
  intros Hx Hf. induction l as [|y l IH]; intros acc; [by apply elem_of_nil in Hx|].
  cbn [each mbind result_bind]. apply elem_of_cons in Hx as [<-|Hx]; [by rewrite Hf|].
  destruct (f y acc) as [acc'|[]]; [by apply IH|done].
Qed.

(** X1: an ORDER BY clause with neither [asc] nor [desc] in it, in any letter
    case, makes [dumbdown] throw, whatever the query and the field map. *)
Theorem order_by_without_direction_throws fieldMaps queryString clause :
  clause ∈ match_all clauseRegex queryString ->
  startsWith "order by" (toLowerCase clause) = true ->
  direction clause = "" ->
  dumbdown fieldMaps queryString = Throw TypeError.
Proof.
  intros Hclause Horder Hdir.
  assert (wrapQualifiers fieldMaps queryString = Throw TypeError) as Hq.
  { unfold wrapQualifiers. apply (each_throws _ _ clause Hclause).
    intros acc. unfold wrapQualifier.
    destruct (toLowerCase clause) as [|c lower]; [done|].
    cbn [startsWith] in Horder. apply andb_true_iff in Horder as [<-%Ascii.eqb_eq Horder].
    cbn [startsWith]. change (Ascii.eqb "w" "o") with false. change (Ascii.eqb "g" "o") with false.
    rewrite Ascii.eqb_refl, Horder. cbn [andb].
    unfold wrapSimpleList, splitFields. by rewrite orderByRegex_needs_direction. }
  unfold dumbdown. rewrite Hq.
  destruct (wrapSelects fieldMaps queryString) as [selectPortion|[]]; [|done].
  by destruct (wrapFrom queryString) as [fromPortion|[]].
Qed.

Lemma order_by_without_direction_throws_witness :
  dumbdown meetingsMaps "select id from meetings where id = 1 order by time limit 5"
  = Throw TypeError.
Proof.
  apply (order_by_without_direction_throws meetingsMaps _ "order by time ").
  - apply list_elem_of_In. vm_compute. tauto.
  - reflexivity.
  - reflexivity.
Defined.

(** * Queries without SELECT or FROM *)

(** A [Forall2] over lists that are computed, each pair by computation. *)
Ltac forall2_computed :=
  lazymatch goal with
  | |- Forall2 _ ?l _ =>
      let l' := eval vm_compute in l in
      replace l with l' by (vm_compute; reflexivity)
  end;
  repeat (constructor; [vm_compute; reflexivity|]);
  constructor.


Lemma in_all_chars a : In a all_chars.
Proof.
  unfold all_chars. rewrite <- (ascii_nat_embedding a). apply in_map, in_seq.
  pose proof (nat_ascii_bounded a). lia.
Qed.

(** Under the [i] flag an ASCII pattern character matches the characters
    with its lower case only. *)
Lemma to_lower_of_ascii_match a b :
  is_ascii a = true -> char_matches true a b = true -> to_lower b = to_lower a.
Proof.
  assert (forallb (fun a => forallb (fun b =>
            implb (is_ascii a && char_matches true a b)
                  (Ascii.eqb (to_lower b) (to_lower a))) all_chars) all_chars = true) as H
    by (vm_compute; reflexivity).
  intros Ha Hm. rewrite forallb_forall in H. specialize (H a (in_all_chars a)).
  rewrite forallb_forall in H. specialize (H b (in_all_chars b)).
  rewrite Ha, Hm in H. by apply Ascii.eqb_eq in H.
Qed.

Lemma toLowerCase_of_ascii_eat p s r :
  str_all is_ascii p = true -> eat true p s = Some r ->
  startsWith (toLowerCase p) (toLowerCase s) = true.
Proof.
  revert s. induction p as [|a p IH]; intros s Hp He; [done|].
  destruct s as [|b s]; [done|]. cbn [eat] in He. cbn [str_all] in Hp.
  apply andb_true_iff in Hp as [Ha Hp].
  destruct (char_matches true a b) eqn:Hab; [|done].
  cbn [toLowerCase startsWith].
  rewrite (to_lower_of_ascii_match a b), Ascii.eqb_refl by done. by apply IH.
Qed.

Lemma match_first_none re s :
  (forall s1 s2, s = s1 +:+ s2 -> match_here re s2 = None) -> match_first re s = None.
Proof.
  induction s as [|c s IH]; intros H.
  - cbn [match_first]. by rewrite (H "" "").
  - cbn [match_first]. rewrite (H "" (String c s)) by done.
    apply IH. intros s1 s2 ->. by apply (H (String c s1)).
Qed.

(** A text without the keyword, in any letter case, has no list. *)
Lemma match_first_without_keyword kw la s :
  str_all is_ascii kw = true -> contains (toLowerCase kw) (toLowerCase s) = false ->
  match_first (list_regex kw la) s = None.
Proof.
  intros Hkw Hs. apply match_first_none. intros s1 s2 ->.
  rewrite toLowerCase_app in Hs. apply contains_app_r_false, contains_false_startsWith in Hs.
  unfold match_here. cbn [run pattern ignoreCase list_regex].
  destruct (eat true kw s2) eqn:He; [|done].
  apply toLowerCase_of_ascii_eat in He; [congruence|done].
Qed.

(** X3: a query without SELECT or without FROM, in any letter case, makes
    [dumbdown] throw. *)
Theorem dumbdown_needs_select_and_from fieldMaps queryString :
  contains "select" (toLowerCase queryString) = false \/
  contains "from" (toLowerCase queryString) = false ->
  dumbdown fieldMaps queryString = Throw TypeError.
Proof.
  intros H. unfold dumbdown, wrapSelects, splitFields.
  destruct H as [H|H].
  - pose proof (match_first_without_keyword "SELECT" (Chars "FROM") _ eq_refl H) as Hm.
    change (list_regex "SELECT" (Chars "FROM")) with selectRegex in Hm. by rewrite Hm.
  - pose proof (match_first_without_keyword "FROM" keywords _ eq_refl H) as Hm.
    change (list_regex "FROM" keywords) with fromRegex in Hm. rewrite Hm.
    destruct (match_first selectRegex queryString) as [found|]; [|done].
    cbn [mbind result_bind of_defined]. by destruct (found !! 2).
Qed.

Lemma dumbdown_needs_select_and_from_witness :
  dumbdown userMaps "SELECT id" = Throw TypeError /\
  dumbdown userMaps "id FROM user" = Throw TypeError.
Proof.
  split.
  - apply dumbdown_needs_select_and_from. right. reflexivity.
  - apply dumbdown_needs_select_and_from. left. reflexivity.
Defined.

(** * Lists written by [commafy] *)

Lemma each_commafy_results_from {A} (g : A -> result string) l ws acc :
  Forall2 (fun x w => g x = Ok w) l ws -> acc <> "" ->
  each (fun x wrapped => w ← g x; Ok (commafy wrapped w)) l acc
  = Ok (String.concat ", " (acc :: ws)).
Proof.
  intros H. revert acc. induction H as [|x w l ws Hx H IH]; intros acc Hacc; [done|].
  cbn [each]. rewrite Hx. cbn [mbind result_bind]. rewrite commafy_next by done.
  rewrite IH by (by destruct acc). f_equal. rewrite (str_concat_cons _ acc) by done.
  destruct ws as [|w' ws]; [done|]. rewrite !str_concat_cons by done.
  by rewrite !str_app_assoc.
Qed.

Lemma each_commafy_results {A} (g : A -> result string) l ws :
  Forall2 (fun x w => g x = Ok w) l ws -> Forall (fun w => w <> "") ws ->
  each (fun x wrapped => w ← g x; Ok (commafy wrapped w)) l "" = Ok (String.concat ", " ws).
Proof.
  intros H Hne. destruct H as [|x w l ws Hx H]; [done|].
  cbn [each]. rewrite Hx. cbn [mbind result_bind]. rewrite commafy_first.
  inversion_clear Hne. by apply each_commafy_results_from.
Qed.

Lemma dumbifyField_not_empty fieldMaps field tables wrapped :
  dumbifyField fieldMaps field tables = Ok wrapped -> wrapped <> "".
Proof.
  unfold dumbifyField, fieldToken.
  destruct (contains "." field);
    (destruct (fieldMaps !! _); cbn [mbind result_bind of_defined]; [|done]);
    by intros [= <-].
Qed.

Lemma selected_not_empty fieldMaps tables f w : selected fieldMaps tables f = Ok w -> w <> "".
Proof.
  unfold selected. destruct (contains "*" f) eqn:Hf.
  - intros [= <-]. by destruct f.
  - apply dumbifyField_not_empty.
Qed.

Lemma Forall2_not_empty {A} (g : A -> result string) l ws :
  (forall x w, g x = Ok w -> w <> "") ->
  Forall2 (fun x w => g x = Ok w) l ws -> Forall (fun w => w <> "") ws.
Proof. intros Hg. induction 1; constructor; eauto. Qed.

Lemma wrapSelects_fields_of fieldMaps queryString fields tables wrapped :
  splitFields queryString selectRegex 2 = Ok fields ->
  splitFields queryString fromRegex 2 = Ok tables ->
  Forall2 (fun f w => selected fieldMaps tables f = Ok w) fields wrapped ->
  wrapSelects fieldMaps queryString = Ok ("SELECT " +:+ String.concat ", " wrapped +:+ " ").
Proof.
  intros Hfields Htables Hwrapped. unfold wrapSelects. rewrite Hfields, Htables.
  cbn [mbind result_bind].
  change (each _ fields "")
    with (each (fun x wrapped => w ← selected fieldMaps tables x; Ok (commafy wrapped w))
            fields "").
  rewrite (each_commafy_results (selected fieldMaps tables) fields wrapped); [done..|].
  eapply Forall2_not_empty; [|done]. apply selected_not_empty.
Qed.

(** X4: the SELECT part of the output is ["SELECT "], the fields of the
    query in their order, a field with a [*] as it is and another one as
    the resolver writes it, with [", "] between them, and a space. *)
Theorem wrapSelects_fields fieldMaps queryString fields tables wrapped :
  splitFields queryString selectRegex 2 = Ok fields ->
  splitFields queryString fromRegex 2 = Ok tables ->
  Forall2 (fun f w => selected fieldMaps tables f = Ok w) fields wrapped ->
  wrapSelects fieldMaps queryString = Ok ("SELECT " +:+ String.concat ", " wrapped +:+ " ").
Proof. apply wrapSelects_fields_of. Qed.

Lemma wrapSelects_fields_witness :
  wrapSelects userMaps "SELECT id, COUNT(*), user.last_name FROM user"
  = Ok "SELECT {user:Id}, COUNT(*), {user:LastName__c} ".
Proof.
  apply (wrapSelects_fields userMaps _ ["id"; "COUNT(*)"; "user.last_name"] ["user"]
           ["{user:Id}"; "COUNT(*)"; "{user:LastName__c}"]); [reflexivity..|].
  forall2_computed.
Defined.

(** X5: a field of the SELECT list that the resolver cannot write, its
    table having no entry in the field map, makes [dumbdown] throw: no part
    of the output is returned. *)
Theorem dumbdown_unresolved_select_field fieldMaps queryString fields tables f :
  splitFields queryString selectRegex 2 = Ok fields ->
  splitFields queryString fromRegex 2 = Ok tables ->
  f ∈ fields -> selected fieldMaps tables f = Throw TypeError ->
  dumbdown fieldMaps queryString = Throw TypeError.
Proof.
  intros Hfields Htables Hf Hthrow. unfold dumbdown, wrapSelects.
  rewrite Hfields, Htables. cbn [mbind result_bind].
  rewrite (each_throws _ fields f Hf); [done|].
  intros acc. fold (selected fieldMaps tables f). by rewrite Hthrow.
Qed.

Lemma dumbdown_unresolved_select_field_witness :
  dumbdown userMaps "SELECT id, account.name FROM user" = Throw TypeError.
Proof.
  apply (dumbdown_unresolved_select_field userMaps _ ["id"; "account.name"] ["user"]
           "account.name"); [reflexivity | reflexivity | | reflexivity].
  apply list_elem_of_In. simpl. tauto.
Defined.

(** * Line breaks *)




(** * The predicates of a WHERE clause put together *)

Lemma wrapClause_predicate fieldMaps tables clause index wrappedWhere :
  wrapClause fieldMaps tables clause index wrappedWhere
  = expression ← wrapPredicate fieldMaps tables clause;
    Ok (if (index =? 0)%nat then expression
        else wrappedWhere +:+ " AND " +:+ expression +:+ " ").
Proof. reflexivity. Qed.

Lemma each_indexed_wrapClause fieldMaps tables clauses es n acc :
  Forall2 (fun c e => wrapPredicate fieldMaps tables c = Ok e) clauses es ->
  each_indexed (wrapClause fieldMaps tables) (S n) clauses acc = Ok (acc +:+ and_joined es).
Proof.
  intros H. revert n acc. induction H as [|c e cs es Hc H IH]; intros n acc.
  - by rewrite str_app_nil_r.
  - cbn [each_indexed]. rewrite wrapClause_predicate, Hc. cbn [mbind result_bind Nat.eqb].
    rewrite IH. cbn [and_joined].
    by rewrite !str_app_assoc.
Qed.

(** X7: [wrapWhere] writes the predicates of the clause in their order: the
    first one as it is, each later one after [" AND "] and before a space. *)
Theorem wrapWhere_predicates fieldMaps whereClause queryString clauses tables e es :
  smallerClauses whereClause = Ok clauses ->
  splitFields queryString fromRegex 2 = Ok tables ->
  Forall2 (fun c e => wrapPredicate fieldMaps tables c = Ok e) clauses (e :: es) ->
  wrapWhere fieldMaps whereClause queryString = Ok (e +:+ and_joined es).
Proof.
  intros Hclauses Htables H. unfold wrapWhere. rewrite Hclauses, Htables.
  cbn [mbind result_bind]. inversion H as [|c e' cs es' Hc Hcs]; subst.
  cbn [each_indexed]. rewrite wrapClause_predicate, Hc. cbn [mbind result_bind Nat.eqb].
  by apply each_indexed_wrapClause.
Qed.

Lemma wrapWhere_predicates_witness :
  wrapWhere userMaps "WHERE first_name = 'John' AND last_name = 'Smith' AND id = 7"
    "SELECT id FROM user WHERE first_name = 'John' AND last_name = 'Smith' AND id = 7"
  = Ok "{user:FirstName__c} = 'John' AND {user:LastName__c} = 'Smith'  AND {user:Id} = 7 ".
Proof.
  apply (wrapWhere_predicates userMaps _ _
           [" first_name = 'John' "; " last_name = 'Smith' "; " id = 7"] ["user"]
           "{user:FirstName__c} = 'John'" ["{user:LastName__c} = 'Smith'"; "{user:Id} = 7"]);
    [reflexivity | reflexivity |].
  forall2_computed.
Defined.

(** * A predicate without [=] *)

Lemma plus_greedy_stops {A} cl body rest (k : string -> option A) a :
  body <> "" -> str_all (in_class cl) body = true ->
  match rest with "" => true | String c _ => negb (in_class cl c) end = true ->
  k rest = Some a ->
  plus_greedy cl (body +:+ rest) k = Some a.
Proof.
  intros Hne Hall Hrest Hk.
  assert (plus_greedy cl rest k = None) as Hnone.
  { destruct rest as [|c rest]; [done|]. cbn [plus_greedy].
    apply negb_true_iff in Hrest. by rewrite Hrest. }
  induction body as [|c body IH]; [done|].
  rewrite str_app_cons. cbn [plus_greedy str_all] in *.
  apply andb_true_iff in Hall as [-> Hall].
  destruct body as [|d body].
  - change ("" +:+ rest) with rest. by rewrite Hnone.
  - by rewrite IH.
Qed.

Lemma getSubstitution_plain matched before after replacement :
  contains "$" replacement = false ->
  getSubstitution matched before after replacement = replacement.
Proof.
  induction replacement as [|c r IH]; [done|]. intros H.
  apply contains_false_inv in H as [Hc Hr]. cbn [startsWith] in Hc.
  rewrite andb_true_r in Hc.
  destruct c as [[] [] [] [] [] [] [] []]; try discriminate Hc;
    cbn [getSubstitution]; by rewrite IH.
Qed.

Lemma indexOf_after_white_space ws word rest :
  str_all is_white_space ws = true -> word <> "" -> no_white_space word = true ->
  indexOf word (ws +:+ word +:+ rest) = Some (String.length ws).
Proof.
  intros Hws Hne Hword. induction ws as [|c ws IH].
  - change ("" +:+ word +:+ rest) with (word +:+ rest).
    destruct word as [|a word]; [done|]. rewrite str_app_cons. cbn [indexOf].
    rewrite <- str_app_cons. by rewrite startsWith_app.
  - cbn [str_all] in Hws. apply andb_true_iff in Hws as [Hc Hws].
    rewrite str_app_cons. cbn [indexOf String.length].
    rewrite (IH Hws). destruct word as [|a word]; [done|].
    cbn [startsWith]. unfold no_white_space in Hword. cbn [str_all] in Hword.
    apply andb_true_iff in Hword as [Ha _].
    destruct (Ascii.eqb_spec a c) as [->|_]; [by rewrite Hc in Ha|done].
Qed.

Lemma match_first_word ws word rest :
  str_all is_white_space ws = true -> word <> "" -> no_white_space word = true ->
  word_end rest = true ->
  match_first wordRegex (ws +:+ word +:+ rest) = Some (<[0 := word]> ∅).
Proof.
  intros Hws Hne Hword Hrest. rewrite match_first_skip.
  - rewrite match_first_unfold. unfold match_here. cbn [run pattern ignoreCase wordRegex].
    rewrite (plus_greedy_stops _ _ _ _ (word, ∅)); [done..| |].
    + destruct rest; [done|]. cbn [in_class]. by rewrite negb_involutive.
    + by rewrite consumed_app.
  - intros p1 [|c p2] -> ?; [done|]. rewrite str_all_app in Hws.
    apply andb_true_iff in Hws as [_ Hws]. cbn [str_all] in Hws.
    apply andb_true_iff in Hws as [Hc _].
    unfold match_here. rewrite str_app_cons.
    cbn [run pattern ignoreCase wordRegex plus_greedy in_class].
    by rewrite Hc.
Qed.

(** X8: in a predicate without [=] the first word is replaced, where it
    stands, by what the resolver writes for it, and the text around it is
    kept; this for a resolver text without [$], which [replace] would read
    as a pattern. *)
Theorem wrapWord_in_place fieldMaps ws word rest tables wrapped :
  str_all is_white_space ws = true -> word <> "" -> no_white_space word = true ->
  word_end rest = true ->
  dumbifyField fieldMaps word tables = Ok wrapped -> contains "$" wrapped = false ->
  wrapWord fieldMaps (ws +:+ word +:+ rest) tables = Ok (ws +:+ wrapped +:+ rest).
Proof.
  intros Hws Hne Hword Hrest Hwrapped Hplain. unfold wrapWord.
  rewrite match_first_word by done. cbn [mbind result_bind of_defined].
  rewrite lookup_insert_eq. cbn [mbind result_bind of_defined]. rewrite Hwrapped.
  cbn [mbind result_bind].
  unfold replace. rewrite indexOf_after_white_space by done.
  rewrite getSubstitution_plain by done.
  rewrite str_take_app. by rewrite <- str_length_app, <- (str_app_assoc ws word rest), str_drop_app.
Qed.

Lemma wrapWord_in_place_witness :
  wrapWord userMaps "  id IS NOT NULL " ["user"] = Ok "  {user:Id} IS NOT NULL ".
Proof.
  apply (wrapWord_in_place userMaps "  " "id" " IS NOT NULL " ["user"] "{user:Id}");
    [reflexivity | discriminate | reflexivity | reflexivity | reflexivity | reflexivity].
Defined.

(** * GROUP BY and ORDER BY *)

Lemma startsWith_keyword K kw s :
  str_all is_ascii K = true -> is_keyword K kw ->
  startsWith (toLowerCase K) (toLowerCase (kw +:+ s)) = true.
Proof.
  intros HK Hkw. apply (toLowerCase_of_ascii_eat K _ s HK). by apply eat_app.
Qed.

Lemma startsWith_other_first a p b q s :
  startsWith (String a p) s = true -> a <> b -> startsWith (String b q) s = false.
Proof.
  destruct s as [|c s]; [done|]. cbn [startsWith].
  intros [->%Ascii.eqb_eq _]%andb_true_iff Hab.
  destruct (Ascii.eqb_spec b c) as [->|_]; done.
Qed.

Lemma splitFields_group_by kw body :
  is_keyword "GROUP BY" kw -> body <> "" -> no_line_terminator body = true ->
  splitFields (kw +:+ body) groupByRegex 1 = Ok (splitList body).
Proof.
  intros Hkw Hne Hlt. unfold splitFields.
  assert (match_here groupByRegex (kw +:+ body) = Some (kw +:+ body, <[1 := body]> ∅)) as Hm.
  { unfold match_here. cbn [run pattern ignoreCase groupByRegex].
    rewrite (eat_app _ _ _ _ Hkw). apply plus_greedy_all; [done..|].
    by rewrite !consumed_nil. }
  rewrite match_first_unfold, Hm. done.
Qed.

(** X9: a GROUP BY clause is rewritten to [" GROUP BY "], its fields in
    their order as the resolver writes them, with [", "] between them, and
    a space. *)
Theorem wrapQualifier_group_by fieldMaps queryString kw body tables wrapped wrappedQualifiers :
  is_keyword "GROUP BY" kw -> body <> "" -> no_line_terminator body = true ->
  splitFields queryString fromRegex 2 = Ok tables ->
  Forall2 (fun f w => dumbifyField fieldMaps f tables = Ok w) (splitList body) wrapped ->
  wrapQualifier fieldMaps queryString (kw +:+ body) wrappedQualifiers
  = Ok (wrappedQualifiers +:+ " GROUP BY " +:+ String.concat ", " wrapped +:+ " ").
Proof.
  intros Hkw Hne Hlt Htables Hwrapped. unfold wrapQualifier.
  pose proof (startsWith_keyword "GROUP BY" kw body eq_refl Hkw) as Hstart.
  change (toLowerCase "GROUP BY") with "group by" in Hstart.
  rewrite (startsWith_other_first _ _ "w" "here" _ Hstart) by discriminate. rewrite Hstart.
  unfold wrapSimpleList. rewrite splitFields_group_by, Htables by done.
  cbn [mbind result_bind].
  rewrite (each_commafy_results (fun f => dumbifyField fieldMaps f tables) _ wrapped); [done..|].
  apply (Forall2_not_empty (fun f => dumbifyField fieldMaps f tables) (splitList body));
    [|done].
  intros f w. apply dumbifyField_not_empty.
Qed.

Lemma wrapQualifier_group_by_witness :
  wrapQualifier meetingsMaps "SELECT id FROM meetings group by date, meetings.time"
    "group by date, meetings.time" " WHERE x "
  = Ok " WHERE x  GROUP BY {meetings:Date}, {meetings:Event_Time__c} ".
Proof.
  apply (wrapQualifier_group_by meetingsMaps _ "group by" " date, meetings.time" ["meetings"]
           ["{meetings:Date}"; "{meetings:Event_Time__c}"]);
    [reflexivity | discriminate | reflexivity | reflexivity |].
  forall2_computed.
Defined.

Lemma plus_greedy_last {A} cl body rest (k : string -> option A) a :
  body <> "" -> str_all (in_class cl) body = true -> k rest = Some a ->
  (forall r1 r2, rest = r1 +:+ r2 -> r1 <> "" -> k r2 = None) ->
  plus_greedy cl (body +:+ rest) k = Some a.
Proof.
  intros Hne Hall Hk Hlater.
  assert (plus_greedy cl rest k = None) as Hnone.
  { clear Hk. induction rest as [|c rest IH]; [done|]. cbn [plus_greedy].
    destruct (in_class cl c); [|done]. rewrite IH.
    - by apply (Hlater (String c "")).
    - intros r1 r2 -> ?. by apply (Hlater (String c r1)). }
  induction body as [|c body IH]; [done|].
  rewrite str_app_cons. cbn [plus_greedy str_all] in *.
  apply andb_true_iff in Hall as [-> Hall].
  destruct body as [|d body].
  - change ("" +:+ rest) with rest. by rewrite Hnone.
  - by rewrite IH.
Qed.

Lemma splitFields_order_by kw body rest :
  is_keyword "ORDER BY" kw -> body <> "" -> no_line_terminator body = true ->
  direction_word rest = true -> nowhere_inside direction_word (str_drop 1 rest) "" = true ->
  splitFields (kw +:+ body +:+ rest) orderByRegex 1 = Ok (splitList body).
Proof.
  intros Hkw Hne Hlt Hrest Hlast. unfold splitFields.
  assert (match_here orderByRegex (kw +:+ body +:+ rest)
          = Some (kw +:+ body, <[1 := body]> ∅)) as Hm.
  { unfold match_here. cbn [run pattern ignoreCase orderByRegex].
    rewrite (eat_app _ _ _ _ Hkw). apply plus_greedy_last; [done..| |].
    - unfold direction_word in Hrest. rewrite consumed_app.
      rewrite <- str_app_assoc, consumed_app.
      keyword_case "DESC" rest; [done|]. keyword_case "ASC" rest; [done|]. done.
    - intros r1 r2 Hr Hr1.
      assert (direction_word r2 = false) as Hr2.
      { destruct r2 as [|c r2]; [done|]. rewrite <- (str_app_nil_r (String c r2)).
        destruct r1 as [|d r1]; [done|]. subst rest. rewrite str_app_cons in Hlast.
        cbn [str_drop] in Hlast. by apply (nowhere_inside_suffix _ _ _ Hlast r1). }
      apply orb_false_iff in Hr2 as [H1 H2].
      by rewrite (starts_with_keyword_false _ _ H1), (starts_with_keyword_false _ _ H2). }
  rewrite match_first_unfold, Hm. done.
Qed.

Lemma startsWith_contains p s : startsWith p s = true -> contains p s = true.
Proof. intros H. by rewrite contains_unfold, H. Qed.

Lemma contains_app_r p s t : contains p t = true -> contains p (s +:+ t) = true.
Proof.
  intros H. induction s as [|c s IH]; [done|].
  rewrite str_app_cons, contains_unfold, IH. apply orb_true_r.
Qed.

Lemma direction_of_word s rest :
  direction_word rest = true ->
  direction (s +:+ rest) = " ASC" \/ direction (s +:+ rest) = " DESC".
Proof.
  intros Hrest. unfold direction.
  destruct (contains "asc" _) eqn:Hasc; [by left|]. right.
  assert (contains "desc" (toLowerCase (s +:+ rest)) = true) as ->; [|done].
  rewrite toLowerCase_app. apply contains_app_r.
  apply orb_true_iff in Hrest as [[r Hr]%starts_with_keyword_true|[r Hr]%starts_with_keyword_true].
  - apply startsWith_contains. by apply (toLowerCase_of_ascii_eat "DESC" _ r).
  - apply (toLowerCase_of_ascii_eat "ASC" _ r) in Hr; [|done].
    apply startsWith_contains in Hr. change (toLowerCase "ASC") with "asc" in Hr.
    rewrite toLowerCase_app in Hasc.
    apply contains_app_r_false in Hasc. congruence.
Qed.

(** X10: an ORDER BY clause with a direction is rewritten to
    [" ORDER BY "], the fields that stand before the last DESC or ASC of
    the clause, in their order as the resolver writes them, a space, and
    [" ASC"] or [" DESC"]. *)
Theorem wrapQualifier_order_by fieldMaps queryString kw body rest tables wrapped
    wrappedQualifiers :
  is_keyword "ORDER BY" kw -> body <> "" -> no_line_terminator body = true ->
  direction_word rest = true -> nowhere_inside direction_word (str_drop 1 rest) "" = true ->
  splitFields queryString fromRegex 2 = Ok tables ->
  Forall2 (fun f w => dumbifyField fieldMaps f tables = Ok w) (splitList body) wrapped ->
  wrapQualifier fieldMaps queryString (kw +:+ body +:+ rest) wrappedQualifiers
  = Ok (wrappedQualifiers +:+ " ORDER BY " +:+ String.concat ", " wrapped +:+ " " +:+
        direction (kw +:+ body +:+ rest)) /\
  (direction (kw +:+ body +:+ rest) = " ASC" \/ direction (kw +:+ body +:+ rest) = " DESC").
Proof.
  intros Hkw Hne Hlt Hrest Hlast Htables Hwrapped. split.
  - unfold wrapQualifier.
    pose proof (startsWith_keyword "ORDER BY" kw (body +:+ rest) eq_refl Hkw) as Hstart.
    change (toLowerCase "ORDER BY") with "order by" in Hstart.
    rewrite (startsWith_other_first _ _ "w" "here" _ Hstart) by discriminate.
    rewrite (startsWith_other_first _ _ "g" "roup by" _ Hstart) by discriminate. rewrite Hstart.
    unfold wrapSimpleList. rewrite splitFields_order_by, Htables by done.
    cbn [mbind result_bind].
    rewrite (each_commafy_results (fun f => dumbifyField fieldMaps f tables) _ wrapped);
      [done..|].
    apply (Forall2_not_empty (fun f => dumbifyField fieldMaps f tables) (splitList body));
    [|done].
  intros f w. apply dumbifyField_not_empty.
  - rewrite <- str_app_assoc. by apply direction_of_word.
Qed.

Lemma wrapQualifier_order_by_witness :
  wrapQualifier meetingsMaps "SELECT id FROM meetings ORDER BY date, time desc"
    "ORDER BY date, time desc" ""
  = Ok " ORDER BY {meetings:Date}, {meetings:Event_Time__c}  DESC".
Proof.
  apply (wrapQualifier_order_by meetingsMaps _ "ORDER BY" " date, time " "desc" ["meetings"]
           ["{meetings:Date}"; "{meetings:Event_Time__c}"] "");
    [reflexivity | discriminate | reflexivity | reflexivity | reflexivity | reflexivity |].
  forall2_computed.
Defined.

(** * The clauses after FROM *)

Lemma eat_prefix i p s r : eat i p s = Some r -> exists pre, s = pre +:+ r /\ eat i p pre = Some "".
Proof.
  revert s. induction p as [|a p IH]; intros s H; cbn [eat] in H.
  - injection H as ->. by exists "".
  - destruct s as [|b s]; [done|]. destruct (char_matches i a b) eqn:Hab; [|done].
    destruct (IH _ H) as (pre & -> & Hpre). exists (String b pre). split; [done|].
    cbn [eat]. by rewrite Hab.
Qed.

Lemma plus_lazy_sound {A} cl s (k : string -> option A) a :
  plus_lazy cl s k = Some a ->
  exists body rest, s = body +:+ rest /\ body <> "" /\ str_all (in_class cl) body = true /\
                    k rest = Some a.
Proof.
  induction s as [|c s IH]; [done|]. cbn [plus_lazy].
  destruct (in_class cl c) eqn:Hc; [|done].
  destruct (k s) as [a'|] eqn:Hk.
  - intros [= <-]. exists (String c ""), s. cbn [str_all]. by rewrite Hc.
  - intros (body & rest & -> & _ & Hall & Hrest)%IH.
    exists (String c body), rest. cbn [str_all]. by rewrite Hc, Hall.
Qed.

(** The clause that [clauseRegex] finds after a keyword. *)
Lemma clause_after_keyword s s' (caps : captures) m caps' :
  run true (Seq (Group 2 (Plus false Dot)) (LookAhead keywords)) s' caps
    (fun s'' caps'' => Some (consumed s s'', caps'')) = Some (m, caps') ->
  exists body rest, s' = body +:+ rest /\ body <> "" /\ no_line_terminator body = true /\
                    m = consumed s rest.
Proof.
  cbn [run]. intros (body & rest & -> & Hne & Hall & Hk)%plus_lazy_sound.
  exists body, rest. repeat split; [done..|].
  fold keywords in Hk. rewrite lookahead_keywords in Hk.
  destruct (list_end rest); by simplify_eq.
Qed.

Lemma match_here_clause s m caps :
  match_here clauseRegex s = Some (m, caps) ->
  exists kw body, m = kw +:+ body /\ qualifier_keyword kw /\ body <> "" /\
                  no_line_terminator body = true.
Proof.
  unfold match_here. cbn [pattern ignoreCase clauseRegex].
  set (tail_of := Seq (Group 2 (Plus false Dot)) (LookAhead keywords)).
  unfold keywords at 1. cbn [run]. fold keywords. fold tail_of.
  assert (forall K s', eat true K s = Some s' ->
            run true tail_of s' (<[1 := consumed s s']> ∅)
              (fun s'' caps'' => Some (consumed s s'', caps'')) = Some (m, caps) ->
            exists kw body, m = kw +:+ body /\ is_keyword K kw /\ body <> "" /\
                            no_line_terminator body = true) as Hcase.
  { intros K s' (kw & -> & Hkw)%eat_prefix (body & rest & -> & ? & ? & ->)%clause_after_keyword.
    exists kw, body. by rewrite <- str_app_assoc, consumed_app. }
  unfold qualifier_keyword.
  repeat match goal with
  | |- context [eat true ?K s] =>
      let E := fresh "E" in
      let R := fresh "R" in
      destruct (eat true K s) as [?s'|] eqn:E;
      [ match goal with
        | |- context [run true tail_of ?t ?c ?k] =>
            destruct (run true tail_of t c k) as [[? ?]|] eqn:R;
            [ intros [= -> ->]; destruct (Hcase _ _ E R) as (kw & body & ? & ? & ? & ?);
              exists kw, body; naive_solver
            | clear E R ]
        end
      | clear E ]
  end.
  all: destruct s; [|done]; subst tail_of; cbn [run plus_lazy]; done.
Qed.

Lemma match_all_from_clauses P re n s :
  (forall s' m caps, match_here re s' = Some (m, caps) -> P m) ->
  Forall P (match_all_from re n s).
Proof.
  intros Hhere. revert n. induction s as [|c s IH]; intros [|n]; cbn [match_all_from];
    try done.
  - destruct (match_here re "") as [[m caps]|] eqn:E; [|done]. repeat constructor. eauto.
  - destruct (match_here re (String c s)) as [[m caps]|] eqn:E; [|done].
    constructor; eauto.
Qed.

(** X11: every clause that [wrapQualifiers] reads starts with WHERE,
    GROUP BY, ORDER BY or LIMIT in some letter case, has text after the
    keyword, and holds no line terminator. *)
Theorem clauses_start_with_keyword queryString :
  Forall (fun clause => exists kw body, clause = kw +:+ body /\ qualifier_keyword kw /\
                                        body <> "" /\ no_line_terminator body = true)
    (match_all clauseRegex queryString).
Proof. apply match_all_from_clauses. intros s' m caps. apply match_here_clause. Qed.

(** * A query of SELECT and FROM *)








(** * The list splitter and the whole output *)

(** X13: a text that, without its white space, is the entries [l] with
    commas between them is split into [l], whatever white space it holds. *)
Theorem splitList_of_joined raw l :
  l <> [] -> Forall (fun entry => contains "," entry = false) l ->
  strip_white_space raw = String.concat "," l ->
  splitList raw = l.
Proof. intros Hne Hl Hraw. unfold splitList. rewrite Hraw. by apply split_concat. Qed.

Lemma splitList_of_joined_witness :
  splitList "  id ,full_name,   last_name " = ["id"; "full_name"; "last_name"].
Proof.
  apply (splitList_of_joined _ ["id"; "full_name"; "last_name"]);
    [discriminate | repeat constructor | reflexivity].
Defined.

(** X14: what [dumbdown] returns starts with ["SELECT "] and goes on, after
    the fields, with ["  FROM "], the tables of the query each written
    [{table}], with [", "] between them, and a space, whatever the letter
    case of the keywords in the query. *)
Theorem dumbdown_output_shape fieldMaps queryString output :
  dumbdown fieldMaps queryString = Ok output ->
  exists fields tables qualifiers,
    splitFields queryString fromRegex 2 = Ok tables /\
    output = "SELECT " +:+ fields +:+ "  FROM " +:+
             String.concat ", " (map braced tables) +:+ " " +:+ qualifiers.
Proof.
  unfold dumbdown, wrapSelects, wrapFrom. intros H.
  destruct (splitFields queryString selectRegex 2) as [selectFields|]; [|done].
  destruct (splitFields queryString fromRegex 2) as [tables|]; [|done].
  cbn [mbind result_bind] in H.
  destruct (each _ selectFields "") as [fields|]; [|done].
  cbn [mbind result_bind] in H. rewrite wrapFrom_each in H.
  destruct (wrapQualifiers fieldMaps queryString) as [qualifiers|]; [|done].
  cbn [mbind result_bind] in H. injection H as <-.
  exists fields, tables, qualifiers. split; [done|]. by rewrite !str_app_assoc.
Qed.

Lemma dumbdown_output_shape_witness :
  exists fields tables qualifiers,
    splitFields "select id from user limit 1" fromRegex 2 = Ok tables /\
    "SELECT {user:Id}  FROM {user}  limit 1"
    = "SELECT " +:+ fields +:+ "  FROM " +:+
      String.concat ", " (map braced tables) +:+ " " +:+ qualifiers.
Proof.
  apply (dumbdown_output_shape userMaps "select id from user limit 1"). reflexivity.
Defined.

(** * The clauses put together *)

(** X15: a LIMIT clause, its keyword in any letter case, is copied to the
    output as it is, after one space. *)
Theorem wrapQualifier_limit fieldMaps queryString kw body wrappedQualifiers :
  is_keyword "LIMIT" kw ->
  wrapQualifier fieldMaps queryString (kw +:+ body) wrappedQualifiers
  = Ok (wrappedQualifiers +:+ " " +:+ kw +:+ body).
Proof.
  intros Hkw. unfold wrapQualifier.
  pose proof (startsWith_keyword "LIMIT" kw body eq_refl Hkw) as Hstart.
  change (toLowerCase "LIMIT") with "limit" in Hstart.
  rewrite (startsWith_other_first _ _ "w" "here" _ Hstart) by discriminate.
  rewrite (startsWith_other_first _ _ "g" "roup by" _ Hstart) by discriminate.
  by rewrite (startsWith_other_first _ _ "o" "rder by" _ Hstart) by discriminate.
Qed.

Lemma wrapQualifier_limit_witness :
  wrapQualifier userMaps "select id from user Limit 10 offset 5" "Limit 10 offset 5" " WHERE x "
  = Ok " WHERE x  Limit 10 offset 5".
Proof. apply (wrapQualifier_limit userMaps _ "Limit" " 10 offset 5"). reflexivity. Defined.

Lemma wrapQualifier_appends fieldMaps queryString clause wrappedQualifiers :
  wrapQualifier fieldMaps queryString clause wrappedQualifiers
  = piece ← wrapQualifier fieldMaps queryString clause ""; Ok (wrappedQualifiers +:+ piece).
Proof.
  unfold wrapQualifier.
  destruct (startsWith "where" _); [by destruct (wrapWhere _ _ _)|].
  destruct (startsWith "group by" _); [by destruct (wrapSimpleList _ _ _ _)|].
  destruct (startsWith "order by" _); [by destruct (wrapSimpleList _ _ _ _)|].
  done.
Qed.

Lemma each_wrapQualifier fieldMaps queryString clauses pieces wrappedQualifiers :
  Forall2 (fun clause piece => wrapQualifier fieldMaps queryString clause "" = Ok piece)
    clauses pieces ->
  each (wrapQualifier fieldMaps queryString) clauses wrappedQualifiers
  = Ok (wrappedQualifiers +:+ joined pieces).
Proof.
  intros H. revert wrappedQualifiers.
  induction H as [|clause piece clauses pieces Hc H IH]; intros acc.
  - by rewrite str_app_nil_r.
  - cbn [each]. rewrite wrapQualifier_appends, Hc. cbn [mbind result_bind].
    rewrite IH. cbn [joined foldr]. by rewrite str_app_assoc.
Qed.

(** X16: the clauses after FROM are rewritten one by one, and what
    [wrapQualifiers] returns is their rewritings one after the other, in the
    order of the clauses in the query. *)
Theorem wrapQualifiers_in_order fieldMaps queryString pieces :
  Forall2 (fun clause piece => wrapQualifier fieldMaps queryString clause "" = Ok piece)
    (match_all clauseRegex queryString) pieces ->
  wrapQualifiers fieldMaps queryString = Ok (joined pieces).
Proof. intros H. unfold wrapQualifiers. by rewrite (each_wrapQualifier _ _ _ pieces). Qed.

Lemma wrapQualifiers_in_order_witness :
  wrapQualifiers meetingsMaps "SELECT id FROM meetings LIMIT 3 GROUP BY date WHERE id = 1"
  = Ok " LIMIT 3  GROUP BY {meetings:Date}  WHERE {meetings:Id} = 1 ".
Proof.
  apply (wrapQualifiers_in_order meetingsMaps _
           [" LIMIT 3 "; " GROUP BY {meetings:Date} "; " WHERE {meetings:Id} = 1 "]).
  forall2_computed.
Defined.

(** * A predicate of white space *)

Lemma match_first_white_space ws :
  str_all is_white_space ws = true -> match_first wordRegex ws = None.
Proof.
  intros Hws. apply match_first_none. intros s1 [|c s2] ->; [done|].
  rewrite str_all_app in Hws. apply andb_true_iff in Hws as [_ Hws]. cbn [str_all] in Hws.
  apply andb_true_iff in Hws as [Hc _].
  unfold match_here. cbn [run pattern ignoreCase wordRegex plus_greedy in_class].
  by rewrite Hc.
Qed.

Lemma white_space_without_equals ws :
  str_all is_white_space ws = true -> contains "=" ws = false.
Proof.
  induction ws as [|c ws IH]; [done|]. cbn [str_all]. intros [Hc Hws]%andb_true_iff.
  rewrite contains_unfold, IH by done. cbn [startsWith].
  destruct (Ascii.eqb_spec "=" c) as [<-|_]; done.
Qed.

Lemma each_indexed_throws {A B} (f : A -> nat -> B -> result B) l x :
  x ∈ l -> (forall index acc, f x index acc = Throw TypeError) ->
  forall index acc, each_indexed f index l acc = Throw TypeError.
Proof.
  intros Hx Hf. induction l as [|y l IH]; intros index acc; [by apply elem_of_nil in Hx|].
  cbn [each_indexed mbind result_bind]. apply elem_of_cons in Hx as [<-|Hx]; [by rewrite Hf|].
  destruct (f y index acc) as [acc'|[]]; [by apply IH|done].
Qed.

(** X17: a predicate of a WHERE clause that is empty or white space only,
    as after an AND at the end of the clause, makes [wrapWhere] throw. *)
Theorem wrapWhere_empty_predicate fieldMaps whereClause queryString clauses tables clause :
  smallerClauses whereClause = Ok clauses ->
  splitFields queryString fromRegex 2 = Ok tables ->
  clause ∈ clauses -> str_all is_white_space clause = true ->
  wrapWhere fieldMaps whereClause queryString = Throw TypeError.
Proof.
  intros Hclauses Htables Hclause Hws. unfold wrapWhere. rewrite Hclauses, Htables.
  cbn [mbind result_bind]. apply (each_indexed_throws _ _ clause Hclause).
  intros index acc. unfold wrapClause.
  rewrite white_space_without_equals by done. unfold wrapWord.
  by rewrite match_first_white_space.
Qed.

Lemma wrapWhere_empty_predicate_witness :
  wrapWhere userMaps "WHERE id = 1 AND " "SELECT id FROM user WHERE id = 1 AND "
  = Throw TypeError.
Proof.
  apply (wrapWhere_empty_predicate userMaps _ _ [" id = 1 "; " "] ["user"] " ");
    [reflexivity | reflexivity | | reflexivity].
  apply list_elem_of_In. simpl. tauto.
Defined.
